(** * Cloth simulation (instable-connection/dist/script.js): model and properties

    The simulator is a grid of particles joined by distance constraints,
    relaxed by iterated projection, integrated by a Verlet step with a floor,
    and edited by a cut operator and a radial push ("wind").

    JavaScript numbers are IEEE 754 binary64 values.  The program text is
    embedded once, over an interface [Number] of the arithmetic it uses, and
    read at two instances of that interface:
    - [Float64]: Rocq's primitive binary64 floats, the arithmetic the
      program really runs on (NaN, infinities, signed zeros, rounding);
    - [Real]: the real numbers, the exact arithmetic in which the damping
      percentages of the floor response are meant.
    Statements that do not depend on the arithmetic are proved for every
    instance. *)

From Stdlib Require Import ZArith String Floats Reals Lra Lia List.
From stdpp Require Import base list.

(** ** The arithmetic of the program *)

Class Number (num : Type) := {
  add : num -> num -> num;
  sub : num -> num -> num;
  mul : num -> num -> num;
  div : num -> num -> num;
  sqrt : num -> num;            (* Math.sqrt *)
  hypot : num -> num -> num;    (* Math.hypot *)
  ltb : num -> num -> bool;     (* a < b *)
  leb : num -> num -> bool;     (* a <= b *)
  eqb : num -> num -> bool;     (* a === b *)
  of_Z : Z -> num               (* an integer literal or loop counter *)
}.

Declare Scope num_scope.
Delimit Scope num_scope with num.
Infix "+" := add : num_scope.
Infix "-" := sub : num_scope.
Infix "*" := mul : num_scope.
Infix "/" := div : num_scope.
Notation "a <? b" := (ltb a b) (at level 70) : num_scope.
Notation "a <=? b" := (leb a b) (at level 70) : num_scope.
Notation "a >? b" := (ltb b a) (at level 70) : num_scope.
Notation "a >=? b" := (leb b a) (at level 70) : num_scope.
Notation "a === b" := (eqb a b) (at level 70) : num_scope.

(** A decimal literal [m / 10^k], such as [0.995 = dec 995 3].  On binary64
    the division of two exactly representable integers is correctly rounded,
    so this is the double nearest to the literal, as JavaScript reads it. *)
Definition dec {num} `{Number num} (m : Z) (k : nat) : num :=
  (of_Z m / of_Z (10 ^ Z.of_nat k))%num.

Definition of_nat {num} `{Number num} (n : nat) : num := of_Z (Z.of_nat n).

(** Binary64.  Integers convert exactly up to [2^53] in size, which covers
    every literal and every loop counter of the program.  [Math.hypot] is
    implementation-approximated in ECMAScript, so it stays a parameter of
    the instance; [Math.sqrt] is the correctly rounded square root. *)
Definition float_of_Z (z : Z) : float :=
  match z with
  | Z0 => PrimFloat.zero
  | Zpos _ => PrimFloat.of_uint63 (Uint63.of_Z z)
  | Zneg p => PrimFloat.opp (PrimFloat.of_uint63 (Uint63.of_Z (Zpos p)))
  end.

Definition Float64 (math_hypot : float -> float -> float) : Number float := {|
  add := PrimFloat.add; sub := PrimFloat.sub;
  mul := PrimFloat.mul; div := PrimFloat.div;
  sqrt := PrimFloat.sqrt; hypot := math_hypot;
  ltb := PrimFloat.ltb; leb := PrimFloat.leb; eqb := PrimFloat.eqb;
  of_Z := float_of_Z
|}.

(** The textbook [hypot], used where a concrete binary64 instance is run. *)
Definition naive_hypot (a b : float) : float :=
  PrimFloat.sqrt (PrimFloat.add (PrimFloat.mul a a) (PrimFloat.mul b b)).

#[global] Instance F64 : Number float := Float64 naive_hypot.

(** Exact real arithmetic. *)
#[global] Instance Real : Number R := {|
  add := Rplus; sub := Rminus; mul := Rmult; div := Rdiv;
  sqrt := R_sqrt.sqrt;
  hypot := fun a b => R_sqrt.sqrt (a * a + b * b)%R;
  ltb := fun a b => if Rlt_dec a b then true else false;
  leb := fun a b => if Rle_dec a b then true else false;
  eqb := fun a b => if Req_dec_T a b then true else false;
  of_Z := IZR
|}.

(** ** Completions

    Every method of the program returns nothing and works by mutation; it
    either runs to its end or stops at a [TypeError] (a field read on
    [undefined], when an index is outside [particles]).  Both outcomes carry
    the state as the mutation left it. *)

Inductive completion (S : Type) : Type :=
| Normal (s : S)
| Throw (s : S).
Arguments Normal {S} s.
Arguments Throw {S} s.

Definition state_of {S} (r : completion S) : S :=
  match r with Normal s | Throw s => s end.

Definition bind {S} (r : completion S) (k : S -> completion S) : completion S :=
  match r with Normal s => k s | Throw s => Throw s end.

Definition cmap {S T} (f : S -> T) (r : completion S) : completion T :=
  match r with Normal s => Normal (f s) | Throw s => Throw (f s) end.

Notation "r >>> k" := (bind r k) (at level 50, left associativity).

(** [for (const a of l) body(a)] on a state threaded through the bodies. *)
Fixpoint foldM {A S} (body : A -> S -> completion S) (l : list A) (s : S)
  : completion S :=
  match l with
  | [] => Normal s
  | a :: l' => body a s >>> foldM body l'
  end.

(** [for (let i = 0; i < n; i++) body(i)]. *)
Definition for_ {S} (n : nat) (body : nat -> S -> completion S) (s : S)
  : completion S :=
  foldM body (seq 0 n) s.

(** [for (let i = 0; i < l.length; i++) { const a = l[i]; ... }] where the
    body mutates only [a]: the elements before a throw are updated, the
    throwing one and those after it are as the body left them. *)
Fixpoint forEach {A} (body : A -> completion A) (l : list A)
  : completion (list A) :=
  match l with
  | [] => Normal []
  | a :: l' =>
      match body a with
      | Normal a' => cmap (cons a') (forEach body l')
      | Throw a' => Throw (a' :: l')
      end
  end.

(** ** Data *)

Module Config.
Record t (num : Type) := mk {
  name : string;
  color : Z;
  friction : num;
  gravity : num;
  stiffness : num;
  particlesX : nat;
  particlesY : nat;
  mouseInfluence : num
}.
Arguments mk {num}.
Arguments name {num}.
Arguments color {num}.
Arguments friction {num}.
Arguments gravity {num}.
Arguments stiffness {num}.
Arguments particlesX {num}.
Arguments particlesY {num}.
Arguments mouseInfluence {num}.
End Config.

Module Particle.
Record t (num : Type) := mk {
  x : num;
  y : num;
  oldx : num;
  oldy : num;
  pinned : bool
}.
Arguments mk {num}.
Arguments x {num}.
Arguments y {num}.
Arguments oldx {num}.
Arguments oldy {num}.
Arguments pinned {num}.

Definition set_x {num} (nx : num) (p : t num) : t num :=
  mk nx (y p) (oldx p) (oldy p) (pinned p).
Definition set_xy {num} (nx ny : num) (p : t num) : t num :=
  mk nx ny (oldx p) (oldy p) (pinned p).
Definition set_y {num} (ny : num) (p : t num) : t num :=
  mk (x p) ny (oldx p) (oldy p) (pinned p).
Definition set_oldx {num} (ox : num) (p : t num) : t num :=
  mk (x p) (y p) ox (oldy p) (pinned p).
Definition set_oldy {num} (oy : num) (p : t num) : t num :=
  mk (x p) (y p) (oldx p) oy (pinned p).
End Particle.

Module Constraint.
Record t (num : Type) := mk {
  p1 : nat;
  p2 : nat;
  length : num;
  active : bool
}.
Arguments mk {num}.
Arguments p1 {num}.
Arguments p2 {num}.
Arguments length {num}.
Arguments active {num}.

Definition deactivate {num} (c : t num) : t num :=
  mk (p1 c) (p2 c) (length c) false.
End Constraint.

Module Mouse.
Record t (num : Type) := mk {
  x : num;
  y : num;
  prevX : num;
  prevY : num;
  isDown : bool;
  isRight : bool
}.
Arguments mk {num}.
Arguments x {num}.
Arguments y {num}.
Arguments prevX {num}.
Arguments prevY {num}.
Arguments isDown {num}.
Arguments isRight {num}.
End Mouse.

(** The simulation state of a [Cloth]; its Three.js geometry, material and
    mesh belong to rendering and are left out. *)
Record Cloth (num : Type) := mkCloth {
  config : Config.t num;
  offsetX : num;
  particles : list (Particle.t num);
  constraints : list (Constraint.t num)
}.
Arguments mkCloth {num}.
Arguments config {num}.
Arguments offsetX {num}.
Arguments particles {num}.
Arguments constraints {num}.

Definition set_particles {num} (c : Cloth num) (ps : list (Particle.t num))
  : Cloth num :=
  mkCloth (config c) (offsetX c) ps (constraints c).

Definition set_constraints {num} (c : Cloth num)
  (cs : list (Constraint.t num)) : Cloth num :=
  mkCloth (config c) (offsetX c) (particles c) cs.

(** ** The program *)

Section Program.
Context {num : Type} {N : Number num}.
Local Open Scope num_scope.

Abbreviation Config := (Config.t num).
Abbreviation Particle := (Particle.t num).
Abbreviation Constraint := (Constraint.t num).
Abbreviation Mouse := (Mouse.t num).

(** *** 2. Material configurations *)

Definition CLOTH_WIDTH : num := of_Z 250.
Definition CLOTH_HEIGHT : num := of_Z 350.

Definition DENIM : Config :=
  Config.mk "Denim" 0x6688cc (dec 90 2) (dec 35 2) (of_Z 1) 15 20 (dec 5 2).
Definition LINEN : Config :=
  Config.mk "Linen" 0xdddddd (dec 96 2) (dec 25 2) (dec 9 1) 25 35 (dec 1 1).
Definition SILK : Config :=
  Config.mk "Silk" 0xff66cc (dec 995 3) (dec 1 1) (of_Z 1) 45 60 (dec 2 1).
Definition ULTRA_SILK : Config :=
  Config.mk "Ultra Silk" 0x9932cc (dec 998 3) (dec 6 2) (dec 95 2) 60 80
    (dec 3 1).

(** *** 3. The cloth class *)

(** [getIdx] of [init]: row-major index of grid position [(x, y)]. *)
Definition getIdx (cfg : Config) (x y : nat) : nat :=
  (y * Config.particlesX cfg + x)%nat.

Definition addConstraint (ps : list Particle) (p1Idx p2Idx : nat)
  (cs : list Constraint) : completion (list Constraint) :=
  match ps !! p1Idx, ps !! p2Idx with
  | Some p1, Some p2 =>
      let dist :=
        hypot (Particle.x p1 - Particle.x p2) (Particle.y p1 - Particle.y p2)
      in
      Normal (cs ++ [Constraint.mk p1Idx p2Idx dist true])
  | _, _ => Throw cs
  end.

(** 1. Generate particles: the two nested loops push row by row. *)
Definition initParticle (offX gapX gapY : num) (x y : nat) : Particle :=
  let startY := of_Z (-250) in
  let pinned := Nat.eqb y 0 in
  Particle.mk (offX + of_nat x * gapX) (startY + of_nat y * gapY)
              (offX + of_nat x * gapX) (startY + of_nat y * gapY)
              pinned.

Definition generateParticles (cfg : Config) (offX : num) : list Particle :=
  let gapX := CLOTH_WIDTH / of_nat (Config.particlesX cfg) in
  let gapY := CLOTH_HEIGHT / of_nat (Config.particlesY cfg) in
  flat_map
    (fun y => map (fun x => initParticle offX gapX gapY x y)
                  (seq 0 (Config.particlesX cfg)))
    (seq 0 (Config.particlesY cfg)).

(** 2. Generate constraints (springs). *)
Definition constraintsAt (cfg : Config) (ps : list Particle) (x y : nat)
  (cs : list Constraint) : completion (list Constraint) :=
  let i := getIdx cfg x y in
  (if (Z.of_nat x <? Z.of_nat (Config.particlesX cfg) - 1)%Z
   then addConstraint ps i (getIdx cfg (x + 1) y) cs
   else Normal cs)
  >>> fun cs =>
  if (Z.of_nat y <? Z.of_nat (Config.particlesY cfg) - 1)%Z
  then addConstraint ps i (getIdx cfg x (y + 1)) cs
  else Normal cs.

Definition generateConstraints (cfg : Config) (ps : list Particle)
  : completion (list Constraint) :=
  for_ (Config.particlesY cfg)
    (fun y => for_ (Config.particlesX cfg) (fun x => constraintsAt cfg ps x y))
    [].

(** [init]: both arrays are replaced by fresh ones; only [config] and
    [offsetX] of the receiver are read.  ([updateGeometry], called last,
    writes the render buffers only.) *)
Definition init (c : Cloth num) : completion (Cloth num) :=
  let ps := generateParticles (config c) (offsetX c) in
  cmap (mkCloth (config c) (offsetX c) ps)
       (generateConstraints (config c) ps).

(** [new Cloth(config, offsetX)]. *)
Definition newCloth (cfg : Config) (offX : num) : completion (Cloth num) :=
  init (mkCloth cfg offX [] []).

(** The number of relaxation passes of [updatePhysics]. *)
Definition iterations (cfg : Config) : nat :=
  if String.eqb (Config.name cfg) "Ultra Silk" then 12
  else if String.eqb (Config.name cfg) "Silk" then 8
  else 4.

(** The body of the inner loop of [updatePhysics], for constraint [c].
    [p1] and [p2] are references into [particles]: the second update reads
    the list as the first one left it, so that a constraint from a particle
    to itself is handled as the program does. *)
Definition relaxConstraint (cfg : Config) (c : Constraint)
  (ps : list Particle) : completion (list Particle) :=
  if negb (Constraint.active c) then Normal ps
  else
    match ps !! Constraint.p1 c, ps !! Constraint.p2 c with
    | Some p1, Some p2 =>
        let dx := Particle.x p1 - Particle.x p2 in
        let dy := Particle.y p1 - Particle.y p2 in
        let dist := sqrt (dx * dx + dy * dy) in
        let diff := (Constraint.length c - dist) / dist * Config.stiffness cfg in
        let correction := diff * dec 5 1 in
        let offsetX := dx * correction in
        let offsetY := dy * correction in
        let ps :=
          if negb (Particle.pinned p1)
          then alter (fun p => Particle.set_xy (Particle.x p + offsetX)
                                               (Particle.y p + offsetY) p)
                     (Constraint.p1 c) ps
          else ps in
        let ps :=
          if negb (Particle.pinned p2)
          then alter (fun p => Particle.set_xy (Particle.x p - offsetX)
                                               (Particle.y p - offsetY) p)
                     (Constraint.p2 c) ps
          else ps in
        Normal ps
    | _, _ => Throw ps
    end.

(** One pass over the constraints, in creation order, in place. *)
Definition relaxPass (cfg : Config) (cs : list Constraint)
  (ps : list Particle) : completion (list Particle) :=
  foldM (relaxConstraint cfg) cs ps.

Definition relax (cfg : Config) (cs : list Constraint) (ps : list Particle)
  : completion (list Particle) :=
  for_ (iterations cfg) (fun _ => relaxPass cfg cs) ps.

(** The body of the Verlet loop of [updatePhysics], for particle [p]. *)
Definition integrate (cfg : Config) (p : Particle) : Particle :=
  if Particle.pinned p then p
  else
    let vx := (Particle.x p - Particle.oldx p) * Config.friction cfg in
    let vy := (Particle.y p - Particle.oldy p) * Config.friction cfg in
    let p := Particle.set_oldx (Particle.x p) p in
    let p := Particle.set_oldy (Particle.y p) p in
    let p := Particle.set_x (Particle.x p + vx) p in
    let p := Particle.set_y (Particle.y p + (vy + Config.gravity cfg)) p in
    if Particle.y p >? of_Z 300 then
      let p := Particle.set_y (of_Z 300) p in
      let floorDamping := dec 1 1 in
      let p :=
        if vy >? of_Z 0
        then Particle.set_oldy (Particle.y p - vy * floorDamping) p
        else Particle.set_oldy (Particle.y p) p in
      Particle.set_oldx (Particle.x p - vx * dec 4 1) p
    else p.

Definition updatePhysics (c : Cloth num) : completion (Cloth num) :=
  cmap (set_particles c)
       (relax (config c) (constraints c) (particles c)
        >>> fun ps => Normal (map (integrate (config c)) ps)).

(** *** 5. Interaction *)

Definition lineIntersect (x1 y1 x2 y2 x3 y3 x4 y4 : num) : bool :=
  let denom := (y4 - y3) * (x2 - x1) - (x4 - x3) * (y2 - y1) in
  if denom === of_Z 0 then false
  else
    let ua := ((x4 - x3) * (y1 - y3) - (y4 - y3) * (x1 - x3)) / denom in
    let ub := ((x2 - x1) * (y1 - y3) - (y2 - y1) * (x1 - x3)) / denom in
    (ua >=? of_Z 0) && (ua <=? of_Z 1) && (ub >=? of_Z 0) && (ub <=? of_Z 1).

(** The body of the loop of [applyCut], for constraint [c] of a cloth with
    particles [ps]. *)
Definition cutConstraint (mouse : Mouse) (ps : list Particle)
  (c : Constraint) : completion Constraint :=
  if negb (Constraint.active c) then Normal c
  else
    match ps !! Constraint.p1 c, ps !! Constraint.p2 c with
    | Some p1, Some p2 =>
        if lineIntersect (Mouse.prevX mouse) (Mouse.prevY mouse)
                         (Mouse.x mouse) (Mouse.y mouse)
                         (Particle.x p1) (Particle.y p1)
                         (Particle.x p2) (Particle.y p2)
        then Normal (Constraint.deactivate c)
        else Normal c
    | _, _ => Throw c
    end.

(** The callback of [cloths.forEach] in [applyCut]. *)
Definition cutCloth (mouse : Mouse) (c : Cloth num) : completion (Cloth num) :=
  cmap (set_constraints c)
       (forEach (cutConstraint mouse (particles c)) (constraints c)).

Definition applyCut (mouse : Mouse) (cloths : list (Cloth num))
  : completion (list (Cloth num)) :=
  forEach (cutCloth mouse) cloths.

(** The body of the loop of [applyWind], for particle [p]. *)
Definition windParticle (mouse : Mouse) (cfg : Config) (p : Particle)
  : Particle :=
  let range := of_Z 80 in
  let dx := Particle.x p - Mouse.x mouse in
  let dy := Particle.y p - Mouse.y mouse in
  let dist := sqrt (dx * dx + dy * dy) in
  if dist <? range then
    let force := (range - dist) / range in
    if negb (Particle.pinned p) then
      let strength := force * Config.mouseInfluence cfg in
      Particle.set_xy (Particle.x p + dx * strength)
                      (Particle.y p + dy * strength) p
    else p
  else p.

Definition applyWind (mouse : Mouse) (c : Cloth num) : Cloth num :=
  set_particles c (map (windParticle mouse (config c)) (particles c)).

(** One frame of [animate], without the rendering. *)
Definition animate (mouse : Mouse) (cloths : list (Cloth num))
  : completion (list (Cloth num)) :=
  forEach
    (fun cloth =>
       updatePhysics cloth >>> fun cloth =>
       Normal (if Mouse.isRight mouse then applyWind mouse cloth else cloth))
    cloths.

(** *** The operations of one simulation, as the specification names them

    [step] is [updatePhysics]; [cutAlongSegment] is [applyCut] on one cloth,
    the segment running from [(prevX, prevY)] to [(x, y)] of the mouse;
    [applyRadialImpulse] is [applyWind], centred at [(x, y)] of the mouse;
    [reset] is [init].  An uncaught [TypeError] ends the frame or the
    event handler it occurs in, not the page: the next operation runs on
    the state as it was left. *)
Inductive op : Type :=
| Step
| CutAlongSegment (mouse : Mouse)
| ApplyRadialImpulse (mouse : Mouse).

Definition exec (o : op) (c : Cloth num) : completion (Cloth num) :=
  match o with
  | Step => updatePhysics c
  | CutAlongSegment mouse => cutCloth mouse c
  | ApplyRadialImpulse mouse => Normal (applyWind mouse c)
  end.

Definition run (ops : list op) (c : Cloth num) : Cloth num :=
  fold_left (fun c o => state_of (exec o c)) ops c.

End Program.


(** ** The earlier copy of the script

    The repository also holds an earlier copy of the same script (three
    materials, no Ultra Silk).  Its [Cloth] class differs from the one above
    in [updatePhysics] only: the pass count knows "Silk" alone, and the floor
    branch is the two assignments below. *)

Module Legacy.
Section Program.
Context {num : Type} {N : Number num}.
Local Open Scope num_scope.

Definition iterations (cfg : Config.t num) : nat :=
  if String.eqb (Config.name cfg) "Silk" then 8 else 4.

Definition integrate (cfg : Config.t num) (p : Particle.t num)
  : Particle.t num :=
  if Particle.pinned p then p
  else
    let vx := (Particle.x p - Particle.oldx p) * Config.friction cfg in
    let vy := (Particle.y p - Particle.oldy p) * Config.friction cfg in
    let p := Particle.set_oldx (Particle.x p) p in
    let p := Particle.set_oldy (Particle.y p) p in
    let p := Particle.set_x (Particle.x p + vx) p in
    let p := Particle.set_y (Particle.y p + (vy + Config.gravity cfg)) p in
    if Particle.y p >? of_Z 300 then
      let p := Particle.set_y (of_Z 300) p in
      Particle.set_oldy (Particle.y p + vy) p
    else p.

Definition updatePhysics (c : Cloth num) : completion (Cloth num) :=
  cmap (set_particles c)
       (for_ (iterations (config c))
             (fun _ => relaxPass (config c) (constraints c)) (particles c)
        >>> fun ps => Normal (map (integrate (config c)) ps)).

End Program.
End Legacy.
(** ** Notions used in the statements *)

(** [n] runs of [f], one after the other, stopping at a throw. *)
Fixpoint repeatM {S} (n : nat) (f : S -> completion S) (s : S) : completion S :=
  match n with
  | O => Normal s
  | Datatypes.S n' => f s >>> repeatM n' f
  end.

(** [ps'] has the particles of [ps] with the same pins, the pinned ones
    untouched. *)
Definition keeps_pins {num} (ps ps' : list (Particle.t num)) : Prop :=
  Forall2 (fun p p' => Particle.pinned p' = Particle.pinned p /\
                       (Particle.pinned p = true -> p' = p)) ps ps'.

(** [cs'] has the constraints of [cs], none of them switched back on. *)
Definition never_reactivated {num} (cs cs' : list (Constraint.t num)) : Prop :=
  Forall2 (fun k k' => Constraint.p1 k' = Constraint.p1 k /\
                       Constraint.p2 k' = Constraint.p2 k /\
                       Constraint.length k' = Constraint.length k /\
                       (Constraint.active k' = true ->
                        Constraint.active k = true)) cs cs'.

(** Every constraint joins two particles of the cloth, as after [init]. *)
Definition well_indexed {num} (c : Cloth num) : bool :=
  forallb (fun k =>
             (Constraint.p1 k <? List.length (particles c))%nat &&
             (Constraint.p2 k <? List.length (particles c))%nat)
          (constraints c).

(** The springs that [addConstraint] pushes for the pair [(a, b)]: one, when
    both particles exist. *)
Definition spring {num} `{Number num} (ps : list (Particle.t num))
  (a b : nat) : list (Constraint.t num) :=
  match ps !! a, ps !! b with
  | Some pa, Some pb =>
      [Constraint.mk a b
         (hypot (Particle.x pa - Particle.x pb)
                (Particle.y pa - Particle.y pb))%num true]
  | _, _ => []
  end.

(** The springs pushed at grid position [(x, y)]: right, then bottom. *)
Definition springsAt {num} `{Number num} (cfg : Config.t num)
  (ps : list (Particle.t num)) (x y : nat) : list (Constraint.t num) :=
  (if (Z.of_nat x <? Z.of_nat (Config.particlesX cfg) - 1)%Z
   then spring ps (getIdx cfg x y) (getIdx cfg (x + 1) y) else []) ++
  (if (Z.of_nat y <? Z.of_nat (Config.particlesY cfg) - 1)%Z
   then spring ps (getIdx cfg x y) (getIdx cfg x (y + 1)) else []).

(** The springs of row [y], and of the whole grid, in creation order. *)
Definition springsOfRow {num} `{Number num} (cfg : Config.t num)
  (ps : list (Particle.t num)) (y : nat) : list (Constraint.t num) :=
  flat_map (fun x => springsAt cfg ps x y) (seq 0 (Config.particlesX cfg)).

Definition springsOfGrid {num} `{Number num} (cfg : Config.t num)
  (ps : list (Particle.t num)) : list (Constraint.t num) :=
  flat_map (springsOfRow cfg ps) (seq 0 (Config.particlesY cfg)).

(** Every field of a profile but its name. *)
Definition settings {num} (cfg : Config.t num)
  : Z * num * num * num * nat * nat * num :=
  (Config.color cfg, Config.friction cfg, Config.gravity cfg,
   Config.stiffness cfg, Config.particlesX cfg, Config.particlesY cfg,
   Config.mouseInfluence cfg).

(** A binary64 value that is NaN or an infinity, on its specification. *)
Definition nonfinite (f : spec_float) : Prop :=
  match f with
  | S754_nan | S754_infinity _ => True
  | S754_zero _ | S754_finite _ _ _ => False
  end.

(** The particles of a cloth whose position is NaN in both coordinates, and
    its free particles. *)
Definition nan_particles (c : Cloth float) : list (Particle.t float) :=
  List.filter (fun p => PrimFloat.is_nan (Particle.x p) &&
                        PrimFloat.is_nan (Particle.y p)) (particles c).

Definition free_particles {num} (c : Cloth num) : list (Particle.t num) :=
  List.filter (fun p => negb (Particle.pinned p)) (particles c).

(** ** Sample states on binary64 *)

Module Sample.

Definition particle (x y : float) (pinned : bool) : Particle.t float :=
  Particle.mk x y x y pinned.

Definition mouse (prevX prevY x y : float) : Mouse.t float :=
  Mouse.mk x y prevX prevY true true.

(** Denim under the name of Silk: every other field is Denim's. *)
Definition denim_named_silk : Config.t float :=
  let denim := DENIM (N := F64) in
  Config.mk "Silk" (Config.color denim) (Config.friction denim)
    (Config.gravity denim) (Config.stiffness denim)
    (Config.particlesX denim) (Config.particlesY denim)
    (Config.mouseInfluence denim).

(** A pinned particle above a free one, joined by a live constraint, and a
    third particle whose constraint has been cut. *)
Definition hanging : Cloth float :=
  mkCloth (DENIM (N := F64)) 0%float
    [particle 0 (-250) true; particle 0 (-200) false; particle 50 (-200) false]
    [Constraint.mk 0 1 50%float true; Constraint.mk 1 2 50%float false].

(** Two free particles at the same place, joined by a live constraint. *)
Definition coincident : Cloth float :=
  mkCloth (DENIM (N := F64)) 0%float
    [particle 0 0 false; particle 0 0 false]
    [Constraint.mk 0 1 10%float true].

(** Two columns of the Silk cloth: Silk's profile, name included, with
    [particlesX] 2.  The rows are spaced as on the page's Silk cloth. *)
Definition silk_strip : Config.t float :=
  let silk := SILK (N := F64) in
  Config.mk (Config.name silk) (Config.color silk) (Config.friction silk)
    (Config.gravity silk) (Config.stiffness silk)
    2 (Config.particlesY silk) (Config.mouseInfluence silk).

(** A drag across the Silk cloth at y = -247, between the pinned row
    (y = -250) and the row below it. *)
Definition slash : Mouse.t float := mouse 410 (-247) 140 (-247).

(** The constraint of the cut example: it spans (0,0)-(10,0). *)
Definition span : Cloth float :=
  mkCloth (DENIM (N := F64)) 0%float
    [particle 0 0 true; particle 10 0 true]
    [Constraint.mk 0 1 10%float true].

End Sample.

(** ** Sample states on the reals *)

Module RealSample.

(** A free Denim particle one unit above the floor, falling ten units a
    frame. *)
Definition falling : Particle.t R :=
  Particle.mk 0%R 299%R (-5)%R 289%R false.

(** A free particle 30 units right of and 40 below the wind centre. *)
Definition nearby : Particle.t R :=
  Particle.mk 30%R 40%R 30%R 40%R false.

Definition centre : Mouse.t R := Mouse.mk 0%R 0%R 0%R 0%R false true.

End RealSample.

(** ** The rest of the script: render buffers, events, the page's state *)

(** Two more operations on numbers, used outside the physics: unary minus
    and the conversion to binary32 that storing into a [Float32Array]
    performs. *)
Class Rendering (num : Type) := {
  neg : num -> num;       (* -a *)
  fround : num -> num     (* the value read back from a Float32Array *)
}.

(** On binary64 the rounding to binary32 stays a parameter. *)
Definition Float64Rendering (to_float32 : float -> float) : Rendering float := {|
  neg := PrimFloat.opp;
  fround := to_float32
|}.

(** On the reals nothing is rounded. *)
#[global] Instance RealRendering : Rendering R := {|
  neg := Ropp;
  fround := fun a => a
|}.

(** What [updateGeometry] hands to the renderer: the flat [position]
    attribute and the index list. *)
Record Geometry (num : Type) := mkGeometry {
  position : list num;
  index : list nat
}.
Arguments mkGeometry {num}.
Arguments position {num}.
Arguments index {num}.

Module World.
Record t (num : Type) := mk {
  cloths : list (Cloth num);
  mouse : Mouse.t num
}.
Arguments mk {num}.
Arguments cloths {num}.
Arguments mouse {num}.
End World.

(** The listeners of the page and the animation frame. *)
Inductive event (num : Type) : Type :=
| MouseDown (button : Z)
| MouseUp
| MouseMove (posX posY : num)
| KeyDown (code : string)
| Frame.
Arguments MouseDown {num}.
Arguments MouseUp {num}.
Arguments MouseMove {num}.
Arguments KeyDown {num}.
Arguments Frame {num}.

Section RestOfScript.
Context {num : Type} {N : Number num} {G : Rendering num}.
Local Open Scope num_scope.

(** [updateGeometry]: both buffers are built afresh from the particles and
    the constraints. *)
Definition updateGeometry (c : Cloth num) : Geometry num :=
  let positions :=
    flat_map (fun p => [fround (Particle.x p);
                        fround (neg (Particle.y p));
                        fround (of_Z 0)])
             (particles c) in
  let indices :=
    flat_map (fun k => if Constraint.active k
                       then [Constraint.p1 k; Constraint.p2 k]
                       else [0%nat; 0%nat])
             (constraints c) in
  mkGeometry positions indices.

(** [const cloths = [new Cloth(...), ...]] and the initial [mouse]. *)
Definition initialCloths : completion (list (Cloth num)) :=
  forEach init [mkCloth DENIM (of_Z (-450)) [] [];
                mkCloth LINEN (of_Z (-150)) [] [];
                mkCloth SILK (of_Z 150) [] [];
                mkCloth ULTRA_SILK (of_Z 450) [] []].

Definition initialMouse : Mouse.t num :=
  Mouse.mk (of_Z 0) (of_Z 0) (of_Z 0) (of_Z 0) false false.

(** ['mousedown']: button 0 is the left one, button 2 the right one. *)
Definition mousedown (button : Z) (m : Mouse.t num) : Mouse.t num :=
  let m := if (button =? 0)%Z
           then Mouse.mk (Mouse.x m) (Mouse.y m) (Mouse.prevX m)
                         (Mouse.prevY m) true (Mouse.isRight m)
           else m in
  if (button =? 2)%Z
  then Mouse.mk (Mouse.x m) (Mouse.y m) (Mouse.prevX m) (Mouse.prevY m)
                (Mouse.isDown m) true
  else m.

(** ['mouseup'], for any button. *)
Definition mouseup (m : Mouse.t num) : Mouse.t num :=
  Mouse.mk (Mouse.x m) (Mouse.y m) (Mouse.prevX m) (Mouse.prevY m) false false.

(** ['mousemove'], from the point [pos] where the pointer's ray meets the
    plane of the cloths (the unprojection is the renderer's): the mouse is
    moved first, then the cloths are cut if the left button is down. *)
Definition mousemove (posX posY : num) (w : World.t num)
  : completion (World.t num) :=
  let m := World.mouse w in
  let m := Mouse.mk posX (neg posY) (Mouse.x m) (Mouse.y m)
                    (Mouse.isDown m) (Mouse.isRight m) in
  if Mouse.isDown m
  then cmap (fun cs => World.mk cs m) (applyCut m (World.cloths w))
  else Normal (World.mk (World.cloths w) m).

(** ['keydown']: Space resets every cloth. *)
Definition keydown (code : string) (w : World.t num)
  : completion (World.t num) :=
  if String.eqb code "Space"
  then cmap (fun cs => World.mk cs (World.mouse w))
            (forEach init (World.cloths w))
  else Normal w.

Definition handle (e : event num) (w : World.t num)
  : completion (World.t num) :=
  match e with
  | MouseDown button =>
      Normal (World.mk (World.cloths w) (mousedown button (World.mouse w)))
  | MouseUp => Normal (World.mk (World.cloths w) (mouseup (World.mouse w)))
  | MouseMove posX posY => mousemove posX posY w
  | KeyDown code => keydown code w
  | Frame =>
      cmap (fun cs => World.mk cs (World.mouse w))
           (animate (World.mouse w) (World.cloths w))
  end.

(** A run of the page: an uncaught error ends one listener or one frame,
    the next event finds the state as it was left. *)
Definition runEvents (es : list (event num)) (w : World.t num) : World.t num :=
  fold_left (fun w e => state_of (handle e w)) es w.

(** Whether the cut segment of [mouse] meets the segment of constraint [k]
    between its two particles. *)
Definition crosses (mouse : Mouse.t num) (ps : list (Particle.t num))
  (k : Constraint.t num) : bool :=
  match ps !! Constraint.p1 k, ps !! Constraint.p2 k with
  | Some a, Some b =>
      lineIntersect (Mouse.prevX mouse) (Mouse.prevY mouse)
                    (Mouse.x mouse) (Mouse.y mouse)
                    (Particle.x a) (Particle.y a)
                    (Particle.x b) (Particle.y b)
  | _, _ => false
  end.

(** What [applyCut] makes of constraint [k], when both its particles
    exist. *)
Definition severed (mouse : Mouse.t num) (ps : list (Particle.t num))
  (k : Constraint.t num) : Constraint.t num :=
  match ps !! Constraint.p1 k, ps !! Constraint.p2 k with
  | Some a, Some b =>
      if Constraint.active k &&
         lineIntersect (Mouse.prevX mouse) (Mouse.prevY mouse)
                       (Mouse.x mouse) (Mouse.y mouse)
                       (Particle.x a) (Particle.y a)
                       (Particle.x b) (Particle.y b)
      then Constraint.deactivate k
      else k
  | _, _ => k
  end.

(** What one frame of [animate] makes of a cloth on which [updatePhysics]
    ends normally. *)
Definition framed (mouse : Mouse.t num) (c : Cloth num) : Cloth num :=
  let c' := state_of (updatePhysics c) in
  if Mouse.isRight mouse then applyWind mouse c' else c'.

(** A cloth as [new Cloth] would build it from the profile and the offset
    of [c]. *)
Definition fresh (c : Cloth num) : Cloth num :=
  state_of (newCloth (config c) (offsetX c)).

(** What [applyCut] makes of a well indexed cloth. *)
Definition cutBy (mouse : Mouse.t num) (c : Cloth num) : Cloth num :=
  set_constraints c (map (severed mouse (particles c)) (constraints c)).

(** Events that neither press the left button nor hit Space. *)
Definition quiet (e : event num) : bool :=
  match e with
  | MouseDown button => negb (button =? 0)%Z
  | KeyDown code => negb (String.eqb code "Space")
  | MouseUp | MouseMove _ _ | Frame => true
  end.

End RestOfScript.

(** A binary64 value that is a zero or NaN, on its specification. *)
Definition zero_or_nan (f : spec_float) : Prop :=
  match f with
  | S754_zero _ | S754_nan => True
  | S754_infinity _ | S754_finite _ _ _ => False
  end.

(** ** More sample states *)

Module Demo.

(** A two by two profile. *)
Definition tiny : Config.t float :=
  Config.mk "Tiny" 0%Z 0.5%float 0.25%float 1%float 2 2 0.5%float.

Definition patch : Cloth float := state_of (newCloth (N := F64) tiny 0%float).

(** On the reals: two free particles five units apart, and a spring of
    rest length 3 between them. *)
Definition pair : list (Particle.t R) :=
  [Particle.mk 5%R 0%R 5%R 0%R false; Particle.mk 0%R 0%R 0%R 0%R false].

Definition spring3 : Constraint.t R := Constraint.mk 0 1 3%R true.

(** On the reals: an empty cloth of a two by two profile, offset 10. *)
Definition blank : Cloth R :=
  mkCloth (Config.mk "Tiny" 0%Z (1 / 2)%R (1 / 4)%R 1%R 2 2 (1 / 2)%R)
          10%R [] [].

End Demo.

(** ** Loops and completions *)

Lemma state_of_cmap {S T} (f : S -> T) (r : completion S) :
  state_of (cmap f r) = f (state_of r).
Proof. destruct r; reflexivity. Qed.

Section Loops.
Context {A S : Type}.

(** A preorder that every body respects is respected by the whole loop,
    whether it ends normally or at a throw. *)
Lemma foldM_preserves (R : S -> S -> Prop) (body : A -> S -> completion S) :
  (forall s, R s s) ->
  (forall s1 s2 s3, R s1 s2 -> R s2 s3 -> R s1 s3) ->
  (forall a s, R s (state_of (body a s))) ->
  forall l s, R s (state_of (foldM body l s)).
Proof.
  intros Hrefl Htrans Hbody l.
  induction l as [|a l IH]; intros s; simpl.
  - apply Hrefl.
  - specialize (Hbody a s).
    destruct (body a s) as [s'|s']; simpl in *.
    + eapply Htrans; [exact Hbody | apply IH].
    + exact Hbody.
Qed.

Lemma forEach_Forall2 (R : A -> A -> Prop) (body : A -> completion A) :
  (forall a, R a a) ->
  (forall a, R a (state_of (body a))) ->
  forall l, Forall2 R l (state_of (forEach body l)).
Proof.
  intros Hrefl Hbody l.
  induction l as [|a l IH]; cbn [forEach]; [constructor|].
  specialize (Hbody a).
  destruct (body a) as [a'|a']; simpl in Hbody.
  - rewrite state_of_cmap. constructor; assumption.
  - simpl. constructor; [assumption|].
    clear -Hrefl. induction l; constructor; auto.
Qed.

End Loops.

Lemma for_repeatM {S} (n : nat) (f : S -> completion S) (s : S) :
  for_ n (fun _ => f) s = repeatM n f s.
Proof.
  unfold for_. generalize 0%nat as start.
  revert s; induction n as [|n IH]; intros s start; simpl; [reflexivity|].
  destruct (f s); simpl; [apply IH | reflexivity].
Qed.

(** ** What the operations leave alone *)

Section Frame.
Context {num : Type} {N : Number num}.

Abbreviation Particle := (Particle.t num).
Abbreviation Constraint := (Constraint.t num).
Implicit Types (ps : list Particle) (cs : list Constraint).

Lemma keeps_pins_refl ps : keeps_pins ps ps.
Proof. induction ps; constructor; auto. Qed.

Lemma keeps_pins_trans ps1 ps2 ps3 :
  keeps_pins ps1 ps2 -> keeps_pins ps2 ps3 -> keeps_pins ps1 ps3.
Proof.
  intros H12; revert ps3.
  induction H12 as [|p q ps qs [Hpin Heq] _ IH]; intros ps3 H23;
    inversion H23 as [|q' r qs' rs [Hpin' Heq'] Hrest]; subst; constructor.
  - split; [congruence|].
    intros Hp. rewrite Heq' by congruence. auto.
  - apply IH; assumption.
Qed.

Lemma keeps_pins_lookup ps ps' i p :
  keeps_pins ps ps' -> ps !! i = Some p ->
  exists p', ps' !! i = Some p' /\ Particle.pinned p' = Particle.pinned p /\
             (Particle.pinned p = true -> p' = p).
Proof.
  intros H Hi.
  destruct (Forall2_lookup_l _ _ _ _ _ H Hi) as (p' & Hi' & HR).
  exists p'. tauto.
Qed.

Lemma keeps_pins_length ps ps' :
  keeps_pins ps ps' -> List.length ps' = List.length ps.
Proof. intros H. symmetry. exact (Forall2_length _ _ _ H). Qed.

Lemma keeps_pins_pinned ps ps' :
  keeps_pins ps ps' -> map Particle.pinned ps' = map Particle.pinned ps.
Proof. induction 1 as [|p q ps qs [Hpin _] _ IH]; simpl; congruence. Qed.

(** Moving a free particle, at any index. *)
Lemma keeps_pins_alter (f : Particle -> Particle) i ps :
  (forall q, Particle.pinned (f q) = Particle.pinned q) ->
  (forall p, ps !! i = Some p -> Particle.pinned p = false) ->
  keeps_pins ps (alter f i ps).
Proof.
  intros Hf. revert i.
  induction ps as [|p ps IH]; intros i Hi; [constructor|].
  destruct i as [|i]; simpl.
  - constructor; [|apply keeps_pins_refl].
    split; [apply Hf|].
    intros Hp. rewrite (Hi p eq_refl) in Hp. discriminate.
  - constructor; [auto|]. apply IH. intros q Hq. apply Hi. exact Hq.
Qed.

Lemma keeps_pins_map (f : Particle -> Particle) ps :
  (forall p, Particle.pinned (f p) = Particle.pinned p /\
             (Particle.pinned p = true -> f p = p)) ->
  keeps_pins ps (map f ps).
Proof. intros Hf. induction ps; simpl; constructor; auto. Qed.

(** The two guarded updates of a relaxation step, the second one reading the
    list as the first one left it. *)
Lemma keeps_pins_two_alters (f1 f2 : Particle -> Particle) i1 i2 ps pa pb :
  (forall q, Particle.pinned (f1 q) = Particle.pinned q) ->
  (forall q, Particle.pinned (f2 q) = Particle.pinned q) ->
  ps !! i1 = Some pa -> ps !! i2 = Some pb ->
  let ps1 := if negb (Particle.pinned pa) then alter f1 i1 ps else ps in
  keeps_pins ps
    (if negb (Particle.pinned pb) then alter f2 i2 ps1 else ps1).
Proof.
  intros Hf1 Hf2 Ha Hb ps1.
  assert (H1 : keeps_pins ps ps1).
  { subst ps1.
    destruct (Particle.pinned pa) eqn:Hpa; simpl; [apply keeps_pins_refl|].
    apply keeps_pins_alter; [exact Hf1|]. intros p Hp. congruence. }
  eapply keeps_pins_trans; [exact H1|].
  destruct (Particle.pinned pb) eqn:Hpb; simpl; [apply keeps_pins_refl|].
  apply keeps_pins_alter; [exact Hf2|].
  intros p Hp.
  destruct (keeps_pins_lookup _ _ _ _ H1 Hb) as (p' & Hp' & Hpin & _).
  congruence.
Qed.

Lemma relaxConstraint_keeps_pins cfg c ps :
  keeps_pins ps (state_of (relaxConstraint cfg c ps)).
Proof.
  unfold relaxConstraint.
  destruct (Constraint.active c); simpl; [|apply keeps_pins_refl].
  destruct (ps !! Constraint.p1 c) as [pa|] eqn:Ha; [|apply keeps_pins_refl].
  destruct (ps !! Constraint.p2 c) as [pb|] eqn:Hb; [|apply keeps_pins_refl].
  cbn [state_of].
  apply keeps_pins_two_alters; auto.
Qed.

Lemma relaxPass_keeps_pins cfg cs ps :
  keeps_pins ps (state_of (relaxPass cfg cs ps)).
Proof.
  unfold relaxPass.
  apply (foldM_preserves keeps_pins);
    auto using keeps_pins_refl, relaxConstraint_keeps_pins.
  apply keeps_pins_trans.
Qed.

Lemma relax_keeps_pins cfg cs ps :
  keeps_pins ps (state_of (relax cfg cs ps)).
Proof.
  unfold relax, for_.
  apply (foldM_preserves keeps_pins);
    auto using keeps_pins_refl, relaxPass_keeps_pins.
  apply keeps_pins_trans.
Qed.

Lemma integrate_pinned cfg p :
  Particle.pinned (integrate cfg p) = Particle.pinned p /\
  (Particle.pinned p = true -> integrate cfg p = p).
Proof.
  unfold integrate.
  destruct (Particle.pinned p) eqn:Hp; [auto|].
  split; [|discriminate].
  repeat match goal with |- context [if ?b then _ else _] => destruct b end;
    simpl; assumption.
Qed.

Lemma windParticle_pinned mouse cfg p :
  Particle.pinned (windParticle mouse cfg p) = Particle.pinned p /\
  (Particle.pinned p = true -> windParticle mouse cfg p = p).
Proof.
  unfold windParticle.
  destruct (ltb _ _); [|auto].
  destruct (Particle.pinned p) eqn:Hp; simpl; auto.
  split; [assumption | discriminate].
Qed.

Lemma updatePhysics_particles c :
  keeps_pins (particles c) (particles (state_of (updatePhysics c))).
Proof.
  unfold updatePhysics. rewrite state_of_cmap. simpl.
  pose proof (relax_keeps_pins (config c) (constraints c) (particles c)) as H.
  destruct (relax _ _ _) as [ps|ps]; simpl in *; [|exact H].
  eapply keeps_pins_trans; [exact H|].
  apply keeps_pins_map, integrate_pinned.
Qed.

Lemma updatePhysics_frame c :
  config (state_of (updatePhysics c)) = config c /\
  offsetX (state_of (updatePhysics c)) = offsetX c /\
  constraints (state_of (updatePhysics c)) = constraints c.
Proof. unfold updatePhysics. rewrite state_of_cmap. auto. Qed.

Lemma cutCloth_frame mouse c :
  config (state_of (cutCloth mouse c)) = config c /\
  offsetX (state_of (cutCloth mouse c)) = offsetX c /\
  particles (state_of (cutCloth mouse c)) = particles c.
Proof. unfold cutCloth. rewrite state_of_cmap. auto. Qed.

Lemma exec_keeps_pins o c :
  keeps_pins (particles c) (particles (state_of (exec o c))).
Proof.
  destruct o as [|mouse|mouse]; simpl.
  - apply updatePhysics_particles.
  - rewrite (proj2 (proj2 (cutCloth_frame mouse c))). apply keeps_pins_refl.
  - apply keeps_pins_map, windParticle_pinned.
Qed.

Lemma run_keeps_pins ops c :
  keeps_pins (particles c) (particles (run ops c)).
Proof.
  unfold run. revert c.
  induction ops as [|o ops IH]; intros c; simpl; [apply keeps_pins_refl|].
  eapply keeps_pins_trans; [apply exec_keeps_pins | apply IH].
Qed.

End Frame.

(** ** Constraints are only ever switched off *)

Section Cuts.
Context {num : Type} {N : Number num}.

Abbreviation Particle := (Particle.t num).
Abbreviation Constraint := (Constraint.t num).
Implicit Types (ps : list Particle) (cs : list Constraint).

Lemma never_reactivated_refl cs : never_reactivated cs cs.
Proof. induction cs; constructor; auto. Qed.

Lemma never_reactivated_trans cs1 cs2 cs3 :
  never_reactivated cs1 cs2 -> never_reactivated cs2 cs3 ->
  never_reactivated cs1 cs3.
Proof.
  intros H12; revert cs3.
  induction H12 as [|k1 k2 cs1 cs2 (Ha & Hb & Hl & Hact) _ IH]; intros cs3 H23;
    inversion H23 as [|k2' k3 cs2' cs3' (Ha' & Hb' & Hl' & Hact') Hrest];
    subst; constructor.
  - repeat split; try congruence. auto.
  - apply IH; assumption.
Qed.

Lemma never_reactivated_inactive cs cs' i k :
  never_reactivated cs cs' -> cs !! i = Some k ->
  Constraint.active k = false -> cs' !! i = Some k.
Proof.
  intros H Hi Hk.
  destruct (Forall2_lookup_l _ _ _ _ _ H Hi) as (k' & Hi' & Ha & Hb & Hl & Hact).
  rewrite Hi'. f_equal.
  destruct k as [a b l act], k' as [a' b' l' act']; simpl in *. subst.
  destruct act'; [|reflexivity].
  discriminate (Hact eq_refl).
Qed.

Lemma cutConstraint_never_reactivates mouse ps k :
  let k' := state_of (cutConstraint mouse ps k) in
  Constraint.p1 k' = Constraint.p1 k /\
  Constraint.p2 k' = Constraint.p2 k /\
  Constraint.length k' = Constraint.length k /\
  (Constraint.active k' = true -> Constraint.active k = true).
Proof.
  intros k'. subst k'. unfold cutConstraint.
  destruct (Constraint.active k) eqn:Hk; simpl;
    repeat match goal with
           | |- context [match ?o with Some _ => _ | None => _ end] => destruct o
           | |- context [if ?b then _ else _] => destruct b
           end;
    simpl; rewrite ?Hk; auto.
Qed.

Lemma cutCloth_never_reactivates mouse c :
  never_reactivated (constraints c) (constraints (state_of (cutCloth mouse c))).
Proof.
  unfold cutCloth. rewrite state_of_cmap. simpl.
  apply (forEach_Forall2
           (fun k k' => Constraint.p1 k' = Constraint.p1 k /\
                        Constraint.p2 k' = Constraint.p2 k /\
                        Constraint.length k' = Constraint.length k /\
                        (Constraint.active k' = true ->
                         Constraint.active k = true))).
  - auto.
  - intros k. apply cutConstraint_never_reactivates.
Qed.

Lemma exec_never_reactivates o c :
  never_reactivated (constraints c) (constraints (state_of (exec o c))).
Proof.
  destruct o as [|mouse|mouse]; simpl.
  - rewrite (proj2 (proj2 (updatePhysics_frame c))).
    apply never_reactivated_refl.
  - apply cutCloth_never_reactivates.
  - apply never_reactivated_refl.
Qed.

Lemma run_never_reactivates ops c :
  never_reactivated (constraints c) (constraints (run ops c)).
Proof.
  unfold run. revert c.
  induction ops as [|o ops IH]; intros c; simpl;
    [apply never_reactivated_refl|].
  eapply never_reactivated_trans; [apply exec_never_reactivates | apply IH].
Qed.

Lemma relaxConstraint_inactive cfg k ps :
  Constraint.active k = false -> relaxConstraint cfg k ps = Normal ps.
Proof. intros Hk. unfold relaxConstraint. rewrite Hk. reflexivity. Qed.

(** A pass sees the live constraints only. *)
Lemma relaxPass_live_only cfg cs ps :
  relaxPass cfg cs ps = relaxPass cfg (List.filter Constraint.active cs) ps.
Proof.
  unfold relaxPass. revert ps.
  induction cs as [|k cs IH]; intros ps; simpl; [reflexivity|].
  destruct (Constraint.active k) eqn:Hk; simpl.
  - destruct (relaxConstraint cfg k ps); simpl; [apply IH | reflexivity].
  - rewrite relaxConstraint_inactive by exact Hk. simpl. apply IH.
Qed.

(** C3. Once a constraint is inactive, no sequence of [step],
    [cutAlongSegment] and [applyRadialImpulse] calls changes it, so it is
    never active again; and an inactive constraint moves no particle in a
    relaxation pass: the pass is the pass over the live constraints. *)
Theorem inactive_constraint_is_inert (ops : list op) (c : Cloth num)
    (i : nat) (k : Constraint) (ps : list Particle) :
  constraints c !! i = Some k ->
  Constraint.active k = false ->
  constraints (run ops c) !! i = Some k /\
  relaxConstraint (config c) k ps = Normal ps /\
  relaxPass (config c) (constraints c) ps =
    relaxPass (config c) (List.filter Constraint.active (constraints c)) ps.
Proof.
  intros Hi Hk. repeat split.
  - exact (never_reactivated_inactive _ _ _ _ (run_never_reactivates ops c) Hi Hk).
  - apply relaxConstraint_inactive, Hk.
  - apply relaxPass_live_only.
Qed.

(** C10. [updatePhysics] writes particle positions and previous positions
    only: the constraints (endpoints, rest lengths, active flags), the
    number of particles and every pinned flag are as before, whether the
    call ends normally or not. *)
Theorem updatePhysics_touches_positions_only (c : Cloth num) :
  let c' := state_of (updatePhysics c) in
  constraints c' = constraints c /\
  List.length (particles c') = List.length (particles c) /\
  map Particle.pinned (particles c') = map Particle.pinned (particles c) /\
  config c' = config c /\
  offsetX c' = offsetX c.
Proof.
  intros c'. subst c'.
  destruct (updatePhysics_frame c) as (Hcfg & Hoff & Hcs).
  pose proof (updatePhysics_particles c) as Hps.
  repeat split; auto using keeps_pins_length, keeps_pins_pinned.
Qed.

End Cuts.

(** The cut constraint of [Sample.hanging] through the same calls. *)
Lemma inactive_constraint_is_inert_witness :
  let ops := [Step; CutAlongSegment (Sample.mouse (-5) (-225) 5 (-225));
              ApplyRadialImpulse (Sample.mouse 0 0 0 (-240)); Step] in
  let k := Constraint.mk 1 2 50%float false in
  let ps := particles Sample.hanging in
  constraints (run (N := F64) ops Sample.hanging) !! 1%nat = Some k /\
  relaxConstraint (N := F64) (config Sample.hanging) k ps = Normal ps /\
  relaxPass (N := F64) (config Sample.hanging) (constraints Sample.hanging) ps =
    relaxPass (N := F64) (config Sample.hanging)
      (List.filter Constraint.active (constraints Sample.hanging)) ps.
Proof.
  intros ops k ps.
  apply (inactive_constraint_is_inert (N := F64)); reflexivity.
Defined.

(** ** The cut operator *)

Section CutOperator.
Context {num : Type} {N : Number num}.
Local Open Scope num_scope.

Lemma well_indexed_lookup (c : Cloth num) (k : Constraint.t num) :
  well_indexed c = true -> In k (constraints c) ->
  exists a b, particles c !! Constraint.p1 k = Some a /\
              particles c !! Constraint.p2 k = Some b.
Proof.
  unfold well_indexed. rewrite forallb_forall. intros H Hk.
  specialize (H k Hk). apply andb_prop in H as [H1 H2].
  apply Nat.ltb_lt in H1, H2.
  destruct (lookup_lt_is_Some_2 _ _ H1) as [a Ha].
  destruct (lookup_lt_is_Some_2 _ _ H2) as [b Hb].
  eauto.
Qed.

(** What [applyCut] leaves of constraint [k]. *)
Lemma cutConstraint_in_range mouse ps (k : Constraint.t num) a b :
  ps !! Constraint.p1 k = Some a -> ps !! Constraint.p2 k = Some b ->
  cutConstraint mouse ps k =
  Normal (Constraint.mk (Constraint.p1 k) (Constraint.p2 k)
            (Constraint.length k)
            (Constraint.active k &&
             negb (lineIntersect (Mouse.prevX mouse) (Mouse.prevY mouse)
                                 (Mouse.x mouse) (Mouse.y mouse)
                                 (Particle.x a) (Particle.y a)
                                 (Particle.x b) (Particle.y b)))).
Proof.
  intros Ha Hb. unfold cutConstraint. rewrite Ha, Hb.
  destruct k as [i j l act]; simpl.
  destruct act; simpl; [|reflexivity].
  destruct (lineIntersect _ _ _ _ _ _ _ _); reflexivity.
Qed.

Lemma forEach_lookup_Normal {A} (body : A -> completion A) (l : list A) :
  (forall a, In a l -> exists a', body a = Normal a') ->
  exists l', forEach body l = Normal l' /\
             List.length l' = List.length l /\
             forall i a, l !! i = Some a ->
                         exists a', body a = Normal a' /\ l' !! i = Some a'.
Proof.
  induction l as [|a l IH]; intros H; simpl.
  - exists []. repeat split. intros i a Hi. destruct i; discriminate.
  - destruct (H a (or_introl eq_refl)) as [a' Ha'].
    destruct IH as (l' & Hl' & Hlen & Hlook).
    { intros b Hb. apply H. right. exact Hb. }
    rewrite Ha', Hl'. simpl. exists (a' :: l'). repeat split.
    + simpl. congruence.
    + intros [|i] b Hi; simpl in *.
      * inversion Hi; subst. eauto.
      * apply Hlook, Hi.
Qed.

Lemma cutCloth_well_indexed mouse (c : Cloth num) :
  well_indexed c = true ->
  exists cs',
    cutCloth mouse c = Normal (set_constraints c cs') /\
    List.length cs' = List.length (constraints c) /\
    forall i k, constraints c !! i = Some k ->
      exists a b,
        particles c !! Constraint.p1 k = Some a /\
        particles c !! Constraint.p2 k = Some b /\
        cs' !! i =
        Some (Constraint.mk (Constraint.p1 k) (Constraint.p2 k)
                (Constraint.length k)
                (Constraint.active k &&
                 negb (lineIntersect (Mouse.prevX mouse) (Mouse.prevY mouse)
                                     (Mouse.x mouse) (Mouse.y mouse)
                                     (Particle.x a) (Particle.y a)
                                     (Particle.x b) (Particle.y b)))).
Proof.
  intros Hwf. unfold cutCloth.
  destruct (forEach_lookup_Normal (cutConstraint mouse (particles c))
              (constraints c)) as (cs' & Hcs' & Hlen & Hlook).
  { intros k Hk.
    destruct (well_indexed_lookup c k Hwf Hk) as (a & b & Ha & Hb).
    rewrite (cutConstraint_in_range mouse _ k a b Ha Hb). eauto. }
  exists cs'. rewrite Hcs'. repeat split; [exact Hlen|].
  intros i k Hi.
  destruct (Hlook i k Hi) as (k' & Hk' & Hi').
  assert (Hin : In k (constraints c)).
  { apply list_elem_of_In. eapply list_elem_of_lookup_2. exact Hi. }
  destruct (well_indexed_lookup c k Hwf Hin) as (a & b & Ha & Hb).
  rewrite (cutConstraint_in_range mouse _ k a b Ha Hb) in Hk'.
  inversion Hk'; subst. eauto.
Qed.

Lemma lineIntersect_zero_denominator (x1 y1 x2 y2 x3 y3 x4 y4 : num) :
  ((y4 - y3) * (x2 - x1) - (x4 - x3) * (y2 - y1) === of_Z 0) = true ->
  lineIntersect x1 y1 x2 y2 x3 y3 x4 y4 = false.
Proof. intros H. unfold lineIntersect. rewrite H. reflexivity. Qed.

Lemma lineIntersect_parametric (x1 y1 x2 y2 x3 y3 x4 y4 : num) :
  let denom := (y4 - y3) * (x2 - x1) - (x4 - x3) * (y2 - y1) in
  let ua := ((x4 - x3) * (y1 - y3) - (y4 - y3) * (x1 - x3)) / denom in
  let ub := ((x2 - x1) * (y1 - y3) - (y2 - y1) * (x1 - x3)) / denom in
  lineIntersect x1 y1 x2 y2 x3 y3 x4 y4 = true <->
  (denom === of_Z 0) = false /\
  (of_Z 0 <=? ua) = true /\ (ua <=? of_Z 1) = true /\
  (of_Z 0 <=? ub) = true /\ (ub <=? of_Z 1) = true.
Proof.
  intros denom ua ub. unfold lineIntersect. fold denom. fold ua. fold ub.
  destruct (denom === of_Z 0).
  - split; [discriminate | intros [H _]; discriminate].
  - rewrite !andb_true_iff. tauto.
Qed.

End CutOperator.


(** ** The number of relaxation passes *)

Section Passes.
Context {num : Type} {N : Number num}.

Lemma iterations_by_name (cfg : Config.t num) :
  (Config.name cfg = "Ultra Silk"%string -> iterations cfg = 12%nat) /\
  (Config.name cfg = "Silk"%string -> iterations cfg = 8%nat) /\
  (Config.name cfg <> "Ultra Silk"%string ->
   Config.name cfg <> "Silk"%string -> iterations cfg = 4%nat).
Proof.
  unfold iterations. repeat split.
  - intros ->. reflexivity.
  - intros ->. reflexivity.
  - intros H1 H2.
    apply String.eqb_neq in H1, H2. rewrite H1, H2. reflexivity.
Qed.

(** C6, as amended.  Relaxation runs exactly [n] passes over the
    constraints, one after the other, where [n] is read off the profile's
    name: 12 for "Ultra Silk", 8 for "Silk", 4 for every other name.  The
    profile has no field holding the count. *)
Theorem relaxation_passes_by_name (c : Cloth num) (n : nat) :
  (Config.name (config c) = "Ultra Silk"%string /\ n = 12%nat) \/
  (Config.name (config c) = "Silk"%string /\ n = 8%nat) \/
  (Config.name (config c) <> "Ultra Silk"%string /\
   Config.name (config c) <> "Silk"%string /\ n = 4%nat) ->
  relax (config c) (constraints c) (particles c) =
    repeatM n (relaxPass (config c) (constraints c)) (particles c) /\
  updatePhysics c =
    cmap (set_particles c)
      (repeatM n (relaxPass (config c) (constraints c)) (particles c)
       >>> fun ps => Normal (map (integrate (config c)) ps)).
Proof.
  intros Hn.
  assert (Hit : iterations (config c) = n).
  { destruct (iterations_by_name (config c)) as (Hu & Hs & Ho).
    destruct Hn as [[Hname ->]|[[Hname ->]|(H1 & H2 & ->)]]; auto. }
  assert (Hrelax : relax (config c) (constraints c) (particles c) =
                   repeatM n (relaxPass (config c) (constraints c))
                           (particles c)).
  { unfold relax. rewrite for_repeatM, Hit. reflexivity. }
  split; [exact Hrelax|].
  unfold updatePhysics. rewrite Hrelax. reflexivity.
Qed.

End Passes.

(** Silk runs eight passes, Denim four. *)
Lemma relaxation_passes_by_name_witness :
  let silk := mkCloth (SILK (N := F64)) 0%float [] [] in
  relax (N := F64) (config silk) (constraints silk) (particles silk) =
    repeatM 8 (relaxPass (config silk) (constraints silk)) (particles silk) /\
  relax (N := F64) (config Sample.hanging) (constraints Sample.hanging)
        (particles Sample.hanging) =
    repeatM 4 (relaxPass (config Sample.hanging) (constraints Sample.hanging))
            (particles Sample.hanging).
Proof.
  intros silk. split.
  - apply (relaxation_passes_by_name (N := F64) silk 8).
    right; left. split; reflexivity.
  - apply (relaxation_passes_by_name (N := F64) Sample.hanging 4).
    right; right. repeat split; discriminate.
Defined.

(** C6, as stated, fails: the pass count is no field of the profile.
    [Sample.denim_named_silk] agrees with Denim on every field but the name,
    yet runs 8 passes where Denim runs 4; so no function of the other fields
    gives the count. *)
Lemma pass_count_is_not_a_profile_field :
  settings Sample.denim_named_silk = settings (DENIM (N := F64)) /\
  iterations (DENIM (N := F64)) = 4%nat /\
  iterations Sample.denim_named_silk = 8%nat /\
  ~ exists field : Z * float * float * float * nat * nat * float -> nat,
      forall cfg : Config.t float, iterations cfg = field (settings cfg).
Proof.
  repeat split.
  intros [field Hfield].
  pose proof (Hfield (DENIM (N := F64))) as H1.
  pose proof (Hfield Sample.denim_named_silk) as H2.
  change (settings Sample.denim_named_silk)
    with (settings (DENIM (N := F64))) in H2.
  rewrite <- H1 in H2.
  vm_compute in H2. discriminate H2.
Qed.

(** ** Grid and topology generation *)

Section Grid.
Context {num : Type} {N : Number num}.
Local Open Scope num_scope.

Abbreviation Config := (Config.t num).
Abbreviation Particle := (Particle.t num).
Abbreviation Constraint := (Constraint.t num).
Implicit Types (cfg : Config) (ps : list Particle) (cs : list Constraint).

(** A loop whose every body pushes a list. *)
Lemma foldM_pushes {A B} (body : A -> list B -> completion (list B))
    (g : A -> list B) (l : list A) :
  (forall a, In a l -> forall s, body a s = Normal (s ++ g a)) ->
  forall s, foldM body l s = Normal (s ++ flat_map g l).
Proof.
  induction l as [|a l IH]; intros H s; simpl.
  - rewrite app_nil_r. reflexivity.
  - rewrite (H a (or_introl eq_refl)). simpl.
    rewrite IH by (intros b Hb; apply H; right; exact Hb).
    rewrite <- app_assoc. reflexivity.
Qed.

Lemma length_flat_map_seq_S {B} (f : nat -> list B) (n : nat) :
  flat_map f (seq 0 (S n)) = flat_map f (seq 0 n) ++ f n.
Proof. rewrite seq_S, flat_map_app. simpl. rewrite app_nil_r. reflexivity. Qed.

(** **** Particles *)

Lemma flat_map_rows_length {B} (f : nat -> nat -> B) (nx ny : nat) :
  List.length (flat_map (fun y => map (fun x => f x y) (seq 0 nx)) (seq 0 ny))
  = (ny * nx)%nat.
Proof.
  induction ny as [|ny IH]; [reflexivity|].
  rewrite length_flat_map_seq_S, length_app, IH, length_map, length_seq. lia.
Qed.

Lemma flat_map_rows_lookup {B} (f : nat -> nat -> B) (nx ny x y : nat) :
  (x < nx)%nat -> (y < ny)%nat ->
  flat_map (fun y => map (fun x => f x y) (seq 0 nx)) (seq 0 ny)
    !! (y * nx + x)%nat = Some (f x y).
Proof.
  intros Hx. induction ny as [|ny IH]; intros Hy; [lia|].
  rewrite length_flat_map_seq_S.
  pose proof (flat_map_rows_length f nx ny) as Hlen.
  destruct (Nat.eq_dec y ny) as [->|Hne].
  - rewrite lookup_app_r by lia.
    rewrite Hlen. replace (ny * nx + x - ny * nx)%nat with x by lia.
    rewrite list_lookup_fmap, lookup_seq_lt by exact Hx. reflexivity.
  - rewrite lookup_app_l by (rewrite Hlen; nia).
    apply IH. lia.
Qed.

Lemma generateParticles_length cfg offX :
  List.length (generateParticles cfg offX) =
  (Config.particlesX cfg * Config.particlesY cfg)%nat.
Proof.
  unfold generateParticles.
  rewrite (flat_map_rows_length (fun x y => initParticle offX _ _ x y)). lia.
Qed.

Lemma generateParticles_lookup cfg offX x y :
  (x < Config.particlesX cfg)%nat -> (y < Config.particlesY cfg)%nat ->
  generateParticles cfg offX !! getIdx cfg x y =
  Some (initParticle offX (CLOTH_WIDTH / of_nat (Config.particlesX cfg))
                     (CLOTH_HEIGHT / of_nat (Config.particlesY cfg)) x y).
Proof.
  intros Hx Hy. unfold generateParticles, getIdx.
  apply (flat_map_rows_lookup
           (fun x y => initParticle offX _ _ x y)); assumption.
Qed.

(** **** Constraints *)

Lemma addConstraint_spring ps a b cs :
  (a < List.length ps)%nat -> (b < List.length ps)%nat ->
  addConstraint ps a b cs = Normal (cs ++ spring ps a b) /\
  List.length (spring ps a b) = 1%nat.
Proof.
  intros Ha Hb. unfold addConstraint, spring.
  destruct (lookup_lt_is_Some_2 _ _ Ha) as [pa ->].
  destruct (lookup_lt_is_Some_2 _ _ Hb) as [pb ->].
  split; reflexivity.
Qed.

Section OnGrid.
Variables (cfg : Config) (ps : list Particle).
Hypothesis Hps :
  List.length ps = (Config.particlesX cfg * Config.particlesY cfg)%nat.

Let Nx := Config.particlesX cfg.
Let Ny := Config.particlesY cfg.

Lemma getIdx_in_range x y :
  (x < Nx)%nat -> (y < Ny)%nat -> (getIdx cfg x y < List.length ps)%nat.
Proof. unfold getIdx. rewrite Hps. fold Nx Ny. nia. Qed.

Lemma constraintsAt_springs x y cs :
  (x < Nx)%nat -> (y < Ny)%nat ->
  constraintsAt cfg ps x y cs = Normal (cs ++ springsAt cfg ps x y).
Proof.
  intros Hx Hy. unfold constraintsAt, springsAt. fold Nx Ny.
  pose proof (getIdx_in_range x y Hx Hy) as Hi.
  destruct (Z.ltb_spec (Z.of_nat x) (Z.of_nat Nx - 1)) as [Hr|Hr];
    destruct (Z.ltb_spec (Z.of_nat y) (Z.of_nat Ny - 1)) as [Hb|Hb].
  - destruct (addConstraint_spring ps (getIdx cfg x y) (getIdx cfg (x + 1) y) cs)
      as [-> _]; [assumption | apply getIdx_in_range; lia |].
    simpl.
    destruct (addConstraint_spring ps (getIdx cfg x y) (getIdx cfg x (y + 1))
                (cs ++ spring ps (getIdx cfg x y) (getIdx cfg (x + 1) y)))
      as [-> _]; [assumption | apply getIdx_in_range; lia |].
    rewrite <- app_assoc. reflexivity.
  - destruct (addConstraint_spring ps (getIdx cfg x y) (getIdx cfg (x + 1) y) cs)
      as [-> _]; [assumption | apply getIdx_in_range; lia |].
    simpl. rewrite app_nil_r. reflexivity.
  - simpl.
    destruct (addConstraint_spring ps (getIdx cfg x y) (getIdx cfg x (y + 1)) cs)
      as [-> _]; [assumption | apply getIdx_in_range; lia |].
    reflexivity.
  - simpl. rewrite app_nil_r. reflexivity.
Qed.

Lemma springsAt_length x y :
  (x < Nx)%nat -> (y < Ny)%nat ->
  List.length (springsAt cfg ps x y) =
  ((if (x + 1 <? Nx)%nat then 1 else 0) +
   (if (y + 1 <? Ny)%nat then 1 else 0))%nat.
Proof.
  intros Hx Hy. unfold springsAt. fold Nx Ny.
  pose proof (getIdx_in_range x y Hx Hy) as Hi.
  rewrite length_app.
  destruct (Z.ltb_spec (Z.of_nat x) (Z.of_nat Nx - 1)) as [Hr|Hr];
    destruct (Z.ltb_spec (Z.of_nat y) (Z.of_nat Ny - 1)) as [Hb|Hb];
    destruct (Nat.ltb_spec (x + 1) Nx); destruct (Nat.ltb_spec (y + 1) Ny);
    try lia;
    repeat match goal with
    | |- context [List.length (spring ps ?a ?b)] =>
        rewrite (proj2 (addConstraint_spring ps a b [] Hi
                          ltac:(apply getIdx_in_range; lia)))
    end; reflexivity.
Qed.

Lemma generateConstraints_springs :
  generateConstraints cfg ps = Normal (springsOfGrid cfg ps).
Proof.
  unfold generateConstraints, for_, springsOfGrid. fold Nx Ny.
  rewrite (foldM_pushes _ (springsOfRow cfg ps)); [reflexivity|].
  intros y Hy cs. apply in_seq in Hy.
  apply (foldM_pushes _ (fun x => springsAt cfg ps x y)).
  intros x Hx cs'. apply in_seq in Hx.
  apply constraintsAt_springs; lia.
Qed.

Lemma springsOfRow_prefix_length y n :
  (y < Ny)%nat -> (n <= Nx)%nat ->
  List.length (flat_map (fun x => springsAt cfg ps x y) (seq 0 n)) =
  (Nat.min n (Nx - 1) + n * (if (y + 1 <? Ny)%nat then 1 else 0))%nat.
Proof.
  intros Hy. induction n as [|n IH]; intros Hn; [reflexivity|].
  rewrite length_flat_map_seq_S, length_app, IH by lia.
  rewrite springsAt_length by lia.
  destruct (Nat.ltb_spec (n + 1) Nx); destruct (y + 1 <? Ny)%nat; lia.
Qed.

Lemma springsOfGrid_prefix_length m :
  (m <= Ny)%nat ->
  List.length (flat_map (springsOfRow cfg ps) (seq 0 m)) =
  (m * (Nx - 1) + Nx * Nat.min m (Ny - 1))%nat.
Proof.
  induction m as [|m IH]; intros Hm; [simpl; lia|].
  rewrite length_flat_map_seq_S, length_app, IH by lia.
  unfold springsOfRow. fold Nx. rewrite springsOfRow_prefix_length by lia.
  destruct (Nat.ltb_spec (m + 1) Ny).
  - replace (Nat.min (S m) (Ny - 1)) with (S (Nat.min m (Ny - 1))) by lia.
    replace (Nat.min Nx (Nx - 1)) with (Nx - 1)%nat by lia. nia.
  - replace (Nat.min (S m) (Ny - 1)) with (Nat.min m (Ny - 1)) by lia.
    replace (Nat.min Nx (Nx - 1)) with (Nx - 1)%nat by lia. nia.
Qed.

Lemma springsOfGrid_length :
  List.length (springsOfGrid cfg ps) = (Nx * (Ny - 1) + (Nx - 1) * Ny)%nat.
Proof.
  unfold springsOfGrid. fold Ny. rewrite springsOfGrid_prefix_length by lia.
  replace (Nat.min Ny (Ny - 1)) with (Ny - 1)%nat by lia. nia.
Qed.

Lemma in_spring (k : Constraint) a b :
  In k (spring ps a b) <->
  exists pa pb,
    ps !! a = Some pa /\ ps !! b = Some pb /\
    k = Constraint.mk a b
          (hypot (Particle.x pa - Particle.x pb)
                 (Particle.y pa - Particle.y pb)) true.
Proof.
  clear Hps.
  unfold spring.
  destruct (ps !! a) as [pa|]; [destruct (ps !! b) as [pb|]|]; simpl.
  - split.
    + intros [<-|[]]. eauto.
    + intros (pa' & pb' & Ha & Hb & ->). left. congruence.
  - split; [tauto | intros (pa' & pb' & _ & Hb & _); discriminate].
  - split; [tauto | intros (pa' & pb' & Ha & _); discriminate].
Qed.

Lemma in_springsOfGrid (k : Constraint) :
  In k (springsOfGrid cfg ps) <->
  exists x y,
    (x < Nx)%nat /\ (y < Ny)%nat /\
    ((x + 1 < Nx)%nat /\
     In k (spring ps (getIdx cfg x y) (getIdx cfg (x + 1) y)) \/
     (y + 1 < Ny)%nat /\
     In k (spring ps (getIdx cfg x y) (getIdx cfg x (y + 1)))).
Proof.
  clear Hps.
  unfold springsOfGrid, springsOfRow. fold Nx Ny.
  rewrite in_flat_map. split.
  - intros (y & Hy & Hk). apply in_seq in Hy.
    apply in_flat_map in Hk as (x & Hx & Hk). apply in_seq in Hx.
    exists x, y. split; [lia|]. split; [lia|].
    unfold springsAt in Hk. fold Nx Ny in Hk.
    apply in_app_or in Hk as [Hk|Hk]; [left|right];
      match type of Hk with
      | context [Z.ltb ?a ?b] => destruct (Z.ltb_spec a b)
      end; (split; [lia | exact Hk]) || destruct Hk.
  - intros (x & y & Hx & Hy & Hk).
    exists y. split; [apply in_seq; lia|].
    apply in_flat_map. exists x. split; [apply in_seq; lia|].
    unfold springsAt. fold Nx Ny. apply in_or_app.
    destruct Hk as [[Hr Hk]|[Hb Hk]]; [left|right];
      match goal with
      | |- context [Z.ltb ?a ?b] => destruct (Z.ltb_spec a b)
      end; (exact Hk || lia).
Qed.

End OnGrid.

Lemma init_Normal (c : Cloth num) :
  let ps := generateParticles (config c) (offsetX c) in
  init c = Normal (mkCloth (config c) (offsetX c) ps
                     (springsOfGrid (config c) ps)).
Proof.
  intros ps. subst ps. unfold init.
  rewrite (generateConstraints_springs _ _ (generateParticles_length _ _)).
  reflexivity.
Qed.

(** C7. [init] ends normally with [Nx * Ny] particles, laid out row by row,
    and [Nx * (Ny - 1) + (Nx - 1) * Ny] constraints (the counts are natural
    numbers, so an empty grid has none; on a grid with at least one row and
    one column this is the same number computed in the integers).  A
    constraint is in the list exactly
    when it joins a grid position to its right neighbour or to its bottom
    neighbour, where that neighbour exists; so no other pair, and no
    diagonal, is joined.  Each constraint is active and its rest length is
    [Math.hypot] of the coordinate differences of its two particles as
    [init] placed them. *)
Theorem reset_builds_the_grid (c : Cloth num) :
  let cfg := config c in
  let Nx := Config.particlesX cfg in
  let Ny := Config.particlesY cfg in
  exists ps cs,
    init c = Normal (mkCloth cfg (offsetX c) ps cs) /\
    List.length ps = (Nx * Ny)%nat /\
    (forall x y, (x < Nx)%nat -> (y < Ny)%nat ->
       ps !! getIdx cfg x y =
       Some (initParticle (offsetX c) (CLOTH_WIDTH / of_nat Nx)
                          (CLOTH_HEIGHT / of_nat Ny) x y)) /\
    List.length cs = (Nx * (Ny - 1) + (Nx - 1) * Ny)%nat /\
    ((1 <= Nx)%nat -> (1 <= Ny)%nat ->
     Z.of_nat (List.length cs) =
     (Z.of_nat Nx * (Z.of_nat Ny - 1) + (Z.of_nat Nx - 1) * Z.of_nat Ny)%Z) /\
    (forall k, In k cs <->
       exists x y pa pb,
         (x < Nx)%nat /\ (y < Ny)%nat /\
         Constraint.p1 k = getIdx cfg x y /\
         ((x + 1 < Nx)%nat /\ Constraint.p2 k = getIdx cfg (x + 1) y \/
          (y + 1 < Ny)%nat /\ Constraint.p2 k = getIdx cfg x (y + 1)) /\
         ps !! Constraint.p1 k = Some pa /\
         ps !! Constraint.p2 k = Some pb /\
         Constraint.length k =
           hypot (Particle.x pa - Particle.x pb)
                 (Particle.y pa - Particle.y pb) /\
         Constraint.active k = true).
Proof.
  intros cfg Nx Ny.
  set (ps := generateParticles cfg (offsetX c)).
  assert (Hps : List.length ps = (Nx * Ny)%nat)
    by apply generateParticles_length.
  exists ps, (springsOfGrid cfg ps).
  split; [|split; [|split; [|split; [|split]]]].
  - unfold init. fold cfg ps.
    rewrite (generateConstraints_springs cfg ps Hps). reflexivity.
  - exact Hps.
  - intros x y Hx Hy. apply generateParticles_lookup; assumption.
  - apply springsOfGrid_length, Hps.
  - intros Hx Hy. rewrite (springsOfGrid_length cfg ps Hps). fold Nx Ny. nia.
  - intros k. rewrite in_springsOfGrid. fold Nx Ny. split.
    + intros (x & y & Hx & Hy & Hk). exists x, y.
      destruct Hk as [[Hr Hk]|[Hb Hk]];
        apply in_spring in Hk as (pa & pb & Ha & Hb' & ->);
        exists pa, pb; simpl; repeat split; auto.
    + intros (x & y & pa & pb & Hx & Hy & H1 & H2 & Ha & Hb & Hl & Hact).
      exists x, y. split; [exact Hx|]. split; [exact Hy|].
      destruct k as [a b l act]; simpl in *. subst a l act.
      destruct H2 as [[Hr ->]|[Hb' ->]]; [left|right];
        (split; [assumption|]); apply in_spring; eauto.
Qed.

(** C9. [init] reads the profile and the offset only: from any two states
    with the same profile and offset it ends normally in the same state,
    particle for particle and constraint for constraint; in particular a
    second [init] reproduces the first. *)
Theorem reset_is_idempotent (c c' : Cloth num) :
  config c' = config c ->
  offsetX c' = offsetX c ->
  init c' = init c /\
  init (state_of (init c)) = init c /\
  exists s, init c = Normal s /\ config s = config c /\ offsetX s = offsetX c.
Proof.
  intros Hcfg Hoff.
  pose proof (init_Normal c) as Hinit. cbv zeta in Hinit.
  split; [|split].
  - unfold init. rewrite Hcfg, Hoff. reflexivity.
  - rewrite Hinit. simpl. rewrite <- Hinit. unfold init. reflexivity.
  - rewrite Hinit. eauto.
Qed.

End Grid.

(** Two different states of the same cloth are reset to the same state. *)
Lemma reset_is_idempotent_witness :
  init Sample.coincident = init Sample.hanging /\
  init (state_of (init Sample.hanging)) = init Sample.hanging /\
  exists s, init Sample.hanging = Normal s /\
            config s = config Sample.hanging /\
            offsetX s = offsetX Sample.hanging.
Proof.
  apply (reset_is_idempotent Sample.hanging Sample.coincident); reflexivity.
Defined.

(** ** Pinned particles *)

(** C2. Through any sequence of [step], [cutAlongSegment] and
    [applyRadialImpulse] calls, from any state, a pinned particle stays the
    particle it was, position included: relaxation, integration and the
    wind operator all leave it alone.  In particular, after [reset] the
    particles of row 0 stay where [reset] put them. *)
Theorem pinned_particle_never_moves :
  (forall num (N : Number num) (ops : list op) (c : Cloth num) (i : nat)
          (p : Particle.t num),
      particles c !! i = Some p ->
      Particle.pinned p = true ->
      particles (run ops c) !! i = Some p) /\
  (forall num (N : Number num) (ops : list op) (c : Cloth num) (x : nat),
      let cfg := config c in
      (x < Config.particlesX cfg)%nat -> (0 < Config.particlesY cfg)%nat ->
      let p := initParticle (offsetX c)
                 (CLOTH_WIDTH / of_nat (Config.particlesX cfg))%num
                 (CLOTH_HEIGHT / of_nat (Config.particlesY cfg))%num x 0 in
      Particle.pinned p = true /\
      particles (state_of (init c)) !! getIdx cfg x 0 = Some p /\
      particles (run ops (state_of (init c))) !! getIdx cfg x 0 = Some p).
Proof.
  assert (Hgen : forall num (N : Number num) (ops : list op) (c : Cloth num)
                        (i : nat) (p : Particle.t num),
             particles c !! i = Some p -> Particle.pinned p = true ->
             particles (run ops c) !! i = Some p).
  { intros num N ops c i p Hi Hp.
    destruct (keeps_pins_lookup _ _ _ _ (run_keeps_pins ops c) Hi)
      as (p' & Hi' & _ & Heq).
    rewrite Hi', (Heq Hp). reflexivity. }
  split; [exact Hgen|].
  intros num N ops c x cfg Hx Hy p.
  assert (Hrow : particles (state_of (init c)) !! getIdx cfg x 0 = Some p).
  { rewrite (init_Normal c). simpl.
    apply generateParticles_lookup; assumption. }
  split; [reflexivity|]. split; [exact Hrow|].
  apply Hgen; [exact Hrow | reflexivity].
Qed.

(** The pinned particle of [Sample.hanging] through a step, a cut, a push
    and another step. *)
Lemma pinned_particle_never_moves_witness :
  particles
    (run (N := F64)
         [Step; CutAlongSegment (Sample.mouse (-5) (-225) 5 (-225));
          ApplyRadialImpulse (Sample.mouse 0 0 0 (-240)); Step]
         Sample.hanging) !! 0%nat
  = Some (Sample.particle 0 (-250) true).
Proof.
  apply (proj1 pinned_particle_never_moves float F64); reflexivity.
Defined.


(** ** Reachable states are well indexed *)

Section Reachable.
Context {num : Type} {N : Number num}.

Lemma well_indexed_preserved (c c' : Cloth num) :
  List.length (particles c') = List.length (particles c) ->
  never_reactivated (constraints c) (constraints c') ->
  well_indexed c = true -> well_indexed c' = true.
Proof.
  unfold well_indexed. intros ->.
  induction 1 as [|k k' cs cs' (H1 & H2 & _) _ IH]; simpl; [reflexivity|].
  rewrite H1, H2. intros H. apply andb_prop in H as [Hk Hcs].
  rewrite Hk. simpl. apply IH, Hcs.
Qed.

Lemma run_well_indexed (ops : list op) (c : Cloth num) :
  well_indexed c = true -> well_indexed (run ops c) = true.
Proof.
  apply well_indexed_preserved.
  - apply keeps_pins_length, run_keeps_pins.
  - apply run_never_reactivates.
Qed.

Lemma init_well_indexed (c : Cloth num) :
  well_indexed (state_of (init c)) = true.
Proof.
  rewrite (init_Normal c). unfold well_indexed. simpl.
  apply forallb_forall. intros k Hk.
  apply in_springsOfGrid in Hk as (x & y & _ & _ & Hk).
  destruct Hk as [[_ Hk]|[_ Hk]];
    apply in_spring in Hk as (pa & pb & Ha & Hb & ->); simpl;
    apply lookup_lt_Some in Ha, Hb;
    apply andb_true_intro; split; apply Nat.ltb_lt; assumption.
Qed.

End Reachable.

(** C5. [applyCut], on a cloth whose constraints join particles of the
    cloth (as they do in every state reached from [init] by the operations),
    ends normally, keeps every constraint's endpoints and rest length, and
    leaves active exactly the constraints that were active and whose segment
    between the current particle positions does not meet the cut segment;
    "meets" is [lineIntersect]: non-zero denominator and both parameters
    [ua], [ub] in [0,1], so a zero denominator (parallel or collinear
    segments) never cuts.  On binary64 the constraint spanning
    (0,0)-(10,0) is cut by the segment (5,-5)-(5,5), kept by (5,5)-(5,15),
    and kept by the collinear segment (0,0)-(5,0). *)
Theorem cut_deactivates_exactly_crossed_constraints :
  (forall num (N : Number num) (ops : list op) (c : Cloth num),
      well_indexed (run ops (state_of (init c))) = true) /\
  (forall num (N : Number num) (mouse : Mouse.t num) (c : Cloth num),
      well_indexed c = true ->
      exists cs',
        cutCloth mouse c = Normal (set_constraints c cs') /\
        List.length cs' = List.length (constraints c) /\
        forall i k, constraints c !! i = Some k ->
          exists a b,
            particles c !! Constraint.p1 k = Some a /\
            particles c !! Constraint.p2 k = Some b /\
            cs' !! i =
            Some (Constraint.mk (Constraint.p1 k) (Constraint.p2 k)
                    (Constraint.length k)
                    (Constraint.active k &&
                     negb (lineIntersect
                             (Mouse.prevX mouse) (Mouse.prevY mouse)
                             (Mouse.x mouse) (Mouse.y mouse)
                             (Particle.x a) (Particle.y a)
                             (Particle.x b) (Particle.y b))))) /\
  (forall num (N : Number num) (x1 y1 x2 y2 x3 y3 x4 y4 : num),
      let denom := ((y4 - y3) * (x2 - x1) - (x4 - x3) * (y2 - y1))%num in
      let ua := (((x4 - x3) * (y1 - y3) - (y4 - y3) * (x1 - x3)) / denom)%num in
      let ub := (((x2 - x1) * (y1 - y3) - (y2 - y1) * (x1 - x3)) / denom)%num in
      (lineIntersect x1 y1 x2 y2 x3 y3 x4 y4 = true <->
       (denom === of_Z 0)%num = false /\
       (of_Z 0 <=? ua)%num = true /\ (ua <=? of_Z 1)%num = true /\
       (of_Z 0 <=? ub)%num = true /\ (ub <=? of_Z 1)%num = true) /\
      ((denom === of_Z 0)%num = true ->
       lineIntersect x1 y1 x2 y2 x3 y3 x4 y4 = false)) /\
  cutCloth (N := F64) (Sample.mouse 5 (-5) 5 5) Sample.span =
    Normal (set_constraints Sample.span [Constraint.mk 0 1 10%float false]) /\
  cutCloth (N := F64) (Sample.mouse 5 5 5 15) Sample.span = Normal Sample.span /\
  cutCloth (N := F64) (Sample.mouse 0 0 5 0) Sample.span = Normal Sample.span.
Proof.
  split; [|split; [|split; [|split; [|split]]]].
  - intros num N ops c. apply run_well_indexed, init_well_indexed.
  - intros num N mouse c. apply cutCloth_well_indexed.
  - intros num N x1 y1 x2 y2 x3 y3 x4 y4 denom ua ub. split.
    + apply lineIntersect_parametric.
    + apply lineIntersect_zero_denominator.
  - vm_compute. reflexivity.
  - vm_compute. reflexivity.
  - vm_compute. reflexivity.
Qed.

(** The general statement at the cut example. *)
Lemma cut_deactivates_exactly_crossed_constraints_witness :
  well_indexed Sample.span = true /\
  exists cs',
    cutCloth (N := F64) (Sample.mouse 5 (-5) 5 5) Sample.span =
      Normal (set_constraints Sample.span cs') /\
    List.length cs' = 1%nat.
Proof.
  split; [reflexivity|].
  destruct (proj1 (proj2 cut_deactivates_exactly_crossed_constraints) float F64
              (Sample.mouse 5 (-5) 5 5) Sample.span eq_refl)
    as (cs' & Hcut & Hlen & _).
  exists cs'. split; [exact Hcut | exact Hlen].
Defined.

(** ** Binary64 facts *)

Section Binary64.
Local Open Scope float_scope.

(** [dec] gives the double that the decimal literal denotes, for every
    literal of the program. *)
#[warnings="-inexact-float"]
Example decimal_literals_on_binary64 :
  [dec (H := F64) 90 2; dec 35 2; dec 5 2; dec 96 2; dec 25 2; dec 9 1;
   dec 1 1; dec 995 3; dec 2 1; dec 998 3; dec 6 2; dec 95 2; dec 3 1;
   dec 5 1; dec 4 1]
  = [0.90; 0.35; 0.05; 0.96; 0.25; 0.9; 0.1; 0.995;
     0.2; 0.998; 0.06; 0.95; 0.3; 0.5; 0.4].
Proof. vm_compute. reflexivity. Qed.

Lemma nonfinite_is_finite (f : float) :
  nonfinite (Prim2SF f) -> PrimFloat.is_finite f = false.
Proof.
  unfold PrimFloat.is_finite, PrimFloat.is_nan, PrimFloat.is_infinity.
  rewrite !FloatAxioms.eqb_spec, abs_spec.
  change (Prim2SF infinity) with (S754_infinity false).
  destruct (Prim2SF f) as [s|s| |s m e]; simpl; try contradiction; intros _.
  - destruct s; reflexivity.
  - reflexivity.
Qed.

Lemma is_finite_cases (f : float) :
  PrimFloat.is_finite f = true ->
  (exists s, Prim2SF f = S754_zero s) \/
  (exists s m e, Prim2SF f = S754_finite s m e).
Proof.
  intros H.
  destruct (Prim2SF f) as [s|s| |s m e] eqn:Hf; eauto.
  - rewrite nonfinite_is_finite in H by (rewrite Hf; exact I). discriminate.
  - rewrite nonfinite_is_finite in H by (rewrite Hf; exact I). discriminate.
Qed.

Lemma eqb_zero_cases (d : float) :
  (d =? 0) = true -> exists s, Prim2SF d = S754_zero s.
Proof.
  rewrite FloatAxioms.eqb_spec.
  change (Prim2SF 0) with (S754_zero false).
  destruct (Prim2SF d) as [s|s| |s m e]; simpl; eauto;
    try destruct s; discriminate.
Qed.

Lemma div_by_zero_nonfinite (n d : float) :
  (d =? 0) = true -> nonfinite (Prim2SF (n / d)).
Proof.
  intros Hd. destruct (eqb_zero_cases d Hd) as [s Hs].
  rewrite div_spec, Hs.
  destruct (Prim2SF n); exact I.
Qed.

Lemma mul_nonfinite_l (a b : float) :
  nonfinite (Prim2SF a) -> nonfinite (Prim2SF (a * b)).
Proof.
  rewrite mul_spec.
  destruct (Prim2SF a); simpl; try contradiction; intros _;
    destruct (Prim2SF b); exact I.
Qed.

Lemma mul_nonfinite_r (a b : float) :
  nonfinite (Prim2SF b) -> nonfinite (Prim2SF (a * b)).
Proof.
  rewrite mul_spec.
  destruct (Prim2SF b); simpl; try contradiction; intros _;
    destruct (Prim2SF a); exact I.
Qed.

Lemma add_nonfinite_r (a b : float) :
  nonfinite (Prim2SF b) -> nonfinite (Prim2SF (a + b)).
Proof.
  rewrite add_spec.
  destruct (Prim2SF b) as [s|s| |s m e]; simpl; try contradiction; intros _;
    destruct (Prim2SF a) as [s'|s'| |s' m' e']; simpl; try exact I;
    destruct s', s; exact I.
Qed.

Lemma sub_nonfinite_r (a b : float) :
  nonfinite (Prim2SF b) -> nonfinite (Prim2SF (a - b)).
Proof.
  rewrite sub_spec.
  destruct (Prim2SF b) as [s|s| |s m e]; simpl; try contradiction; intros _;
    destruct (Prim2SF a) as [s'|s'| |s' m' e']; simpl; try exact I;
    destruct s', s; exact I.
Qed.

(** A finite number minus itself is [+0]. *)
Lemma sub_diag_finite (a : float) :
  PrimFloat.is_finite a = true -> a - a = 0.
Proof.
  intros Ha. apply Prim2SF_inj. rewrite sub_spec.
  change (Prim2SF 0) with (S754_zero false).
  destruct (is_finite_cases a Ha) as [[s ->]|(s & m & e & ->)].
  - destruct s; reflexivity.
  - unfold SF64sub, SFsub.
    change (IntDef.Z.min e e) with (Z.min e e).
    rewrite Z.min_id. unfold shl_align. rewrite !Z.sub_diag. simpl.
    rewrite ?Z.sub_diag. reflexivity.
Qed.

End Binary64.

(** ** The unguarded division of the relaxation step, on binary64 *)

Section Degenerate.
Variable math_hypot : float -> float -> float.
Local Open Scope float_scope.

(** The displacement of a relaxation step whose distance is zero. *)
Lemma zero_distance_offset_nonfinite (d len dist stiff : float) :
  (dist =? 0) = true ->
  nonfinite (Prim2SF (d * ((len - dist) / dist * stiff * (5 / 10)))).
Proof.
  intros Hdist.
  apply mul_nonfinite_r, mul_nonfinite_l, mul_nonfinite_l.
  apply div_by_zero_nonfinite, Hdist.
Qed.

Lemma moved_by_nonfinite (offX offY : float) (q : Particle.t float) :
  nonfinite (Prim2SF offX) -> nonfinite (Prim2SF offY) ->
  let q1 := Particle.set_xy (Particle.x q + offX) (Particle.y q + offY) q in
  let q2 := Particle.set_xy (Particle.x q - offX) (Particle.y q - offY) q in
  let q3 := Particle.set_xy (Particle.x q1 - offX) (Particle.y q1 - offY) q1 in
  (PrimFloat.is_finite (Particle.x q1) = false /\
   PrimFloat.is_finite (Particle.y q1) = false) /\
  (PrimFloat.is_finite (Particle.x q2) = false /\
   PrimFloat.is_finite (Particle.y q2) = false) /\
  (PrimFloat.is_finite (Particle.x q3) = false /\
   PrimFloat.is_finite (Particle.y q3) = false).
Proof.
  intros HX HY. simpl.
  repeat split; apply nonfinite_is_finite;
    auto using add_nonfinite_r, sub_nonfinite_r.
Qed.

(** The extent of the defect.  The relaxation step of [updatePhysics]
    divides by the distance of the endpoints without testing it, so an
    active constraint whose endpoints are at distance exactly zero (as two
    particles at the same finite position are) is relaxed like any other.
    On binary64 the division raises nothing and the relaxation of the
    constraint ends normally; pinned particles are untouched, and both
    coordinates of every endpoint that is not pinned are lost to NaN or an
    infinity, whatever the rest length and the stiffness. *)
Theorem zero_distance_constraint_is_not_skipped
    (cfg : Config.t float) (k : Constraint.t float)
    (ps : list (Particle.t float)) (pa pb : Particle.t float) :
  Constraint.active k = true ->
  ps !! Constraint.p1 k = Some pa ->
  ps !! Constraint.p2 k = Some pb ->
  (let dx := Particle.x pa - Particle.x pb in
   let dy := Particle.y pa - Particle.y pb in
   PrimFloat.sqrt (dx * dx + dy * dy) =? 0) = true ->
  exists ps',
    relaxConstraint (N := Float64 math_hypot) cfg k ps = Normal ps' /\
    (Particle.pinned pa = false ->
     exists q, ps' !! Constraint.p1 k = Some q /\
               PrimFloat.is_finite (Particle.x q) = false /\
               PrimFloat.is_finite (Particle.y q) = false) /\
    (Particle.pinned pb = false ->
     exists q, ps' !! Constraint.p2 k = Some q /\
               PrimFloat.is_finite (Particle.x q) = false /\
               PrimFloat.is_finite (Particle.y q) = false) /\
    (forall i p, ps !! i = Some p -> Particle.pinned p = true ->
                 ps' !! i = Some p).
Proof.
  intros Hact Ha Hb Hdist.
  pose proof (relaxConstraint_keeps_pins (N := Float64 math_hypot) cfg k ps)
    as Hkeep.
  revert Hkeep. unfold relaxConstraint. rewrite Hact, Ha, Hb.
  change (@dec float (Float64 math_hypot) 5 1) with (5 / 10).
  cbn [negb state_of add sub mul div sqrt Float64].
  set (dx := Particle.x pa - Particle.x pb) in *.
  set (dy := Particle.y pa - Particle.y pb) in *.
  set (dist := PrimFloat.sqrt (dx * dx + dy * dy)) in *.
  set (corr := (Constraint.length k - dist) / dist * Config.stiffness cfg
               * (5 / 10)).
  assert (HX : nonfinite (Prim2SF (dx * corr)))
    by (apply zero_distance_offset_nonfinite, Hdist).
  assert (HY : nonfinite (Prim2SF (dy * corr)))
    by (apply zero_distance_offset_nonfinite, Hdist).
  set (f1 := fun p : Particle.t float =>
               Particle.set_xy (Particle.x p + dx * corr)
                               (Particle.y p + dy * corr) p).
  set (f2 := fun p : Particle.t float =>
               Particle.set_xy (Particle.x p - dx * corr)
                               (Particle.y p - dy * corr) p).
  intros Hkeep. eexists. split; [reflexivity|]. split; [|split].
  - intros Hpa. rewrite Hpa. cbn [negb].
    assert (H1 : alter f1 (Constraint.p1 k) ps !! Constraint.p1 k
                 = Some (f1 pa))
      by (rewrite list_lookup_alter_eq, Ha; reflexivity).
    destruct (Particle.pinned pb); cbn [negb].
    + exists (f1 pa). split; [exact H1|].
      apply (moved_by_nonfinite _ _ pa HX HY).
    + destruct (Nat.eq_dec (Constraint.p1 k) (Constraint.p2 k)) as [He|Hne].
      * exists (f2 (f1 pa)). split.
        -- rewrite <- He. rewrite list_lookup_alter_eq, H1. reflexivity.
        -- apply (moved_by_nonfinite _ _ pa HX HY).
      * exists (f1 pa). split.
        -- rewrite list_lookup_alter_ne by auto. exact H1.
        -- apply (moved_by_nonfinite _ _ pa HX HY).
  - intros Hpb. rewrite Hpb. cbn [negb].
    set (ps1 := if negb (Particle.pinned pa)
                then alter f1 (Constraint.p1 k) ps else ps).
    assert (H1 : exists q0, ps1 !! Constraint.p2 k = Some q0).
    { apply lookup_lt_is_Some_2.
      assert (Hlen : List.length ps1 = List.length ps).
      { unfold ps1. destruct (negb (Particle.pinned pa));
          [apply length_alter | reflexivity]. }
      rewrite Hlen. eapply lookup_lt_Some. exact Hb. }
    destruct H1 as [q0 Hq0].
    exists (f2 q0). split.
    + rewrite list_lookup_alter_eq, Hq0. reflexivity.
    + apply (moved_by_nonfinite _ _ q0 HX HY).
  - intros i p Hi Hp.
    destruct (keeps_pins_lookup _ _ _ _ Hkeep Hi) as (p' & Hi' & _ & Heq).
    rewrite Hi', (Heq Hp). reflexivity.
Qed.

End Degenerate.

(** The two free particles of [Sample.coincident] after one relaxation of
    their constraint. *)
Lemma zero_distance_constraint_is_not_skipped_witness :
  exists ps',
    relaxConstraint (N := F64) (config Sample.coincident)
      (Constraint.mk 0 1 10%float true) (particles Sample.coincident)
    = Normal ps' /\
    exists q, ps' !! 0%nat = Some q /\
              PrimFloat.is_finite (Particle.x q) = false /\
              PrimFloat.is_finite (Particle.y q) = false.
Proof.
  destruct (zero_distance_constraint_is_not_skipped naive_hypot
              (config Sample.coincident) (Constraint.mk 0 1 10%float true)
              (particles Sample.coincident)
              (Sample.particle 0%float 0%float false)
              (Sample.particle 0%float 0%float false)
              eq_refl eq_refl eq_refl eq_refl)
    as (ps' & Hrun & Hfirst & _).
  exists ps'. split; [exact Hrun|]. exact (Hfirst eq_refl).
Defined.

(** C1: the code breaks the claim.  The claim asks that an active
    constraint whose endpoints coincide be skipped, that nothing be divided
    by zero and that no position be NaN or infinite after the step.
    [updatePhysics] divides by the distance without testing it, although
    the comment at that division says its factor is there to prevent
    exploding meshes, and although the division of [lineIntersect] is
    guarded by a test of its denominator.  On [Sample.coincident], two free
    particles at (0,0) joined by an active constraint of rest length 10,
    the constraint is not skipped: its relaxation ends normally and leaves
    both particles at (NaN, NaN), and after [updatePhysics], which ends
    normally too, every coordinate is NaN. *)
Lemma coincident_particles_become_nan :
  relaxConstraint (N := F64) (config Sample.coincident)
    (Constraint.mk 0 1 10%float true) (particles Sample.coincident)
  = Normal [Particle.mk nan nan 0%float 0%float false;
            Particle.mk nan nan 0%float 0%float false]
  /\
  map (fun p => (PrimFloat.is_nan (Particle.x p), PrimFloat.is_nan (Particle.y p)))
      (particles (state_of (updatePhysics (N := F64) Sample.coincident)))
  = [(true, true); (true, true)]
  /\
  exists c', updatePhysics (N := F64) Sample.coincident = Normal c'.
Proof.
  split; [|split].
  - vm_compute. reflexivity.
  - vm_compute. reflexivity.
  - eexists. vm_compute. reflexivity.
Qed.

(** The script reaches such a state by itself.  Two columns of the Silk
    cloth are built by [new Cloth] and cut loose by one drag under the
    pinned row; they fall and pile up on the floor.  After 119 frames no
    position is NaN, and the two topmost free particles of the first column
    lie at the same place on the floor, (150, 300), joined by an active
    constraint.  The 120th frame divides by their distance: after it every
    free particle is at (NaN, NaN). *)
Lemma silk_strip_cut_loose_turns_nan :
  let cloth := state_of (newCloth (N := F64) Sample.silk_strip 150%float) in
  let frames n :=
    run (N := F64) (CutAlongSegment Sample.slash :: repeat Step n) cloth in
  let place (p : Particle.t float) :=
    (Particle.x p, Particle.y p, Particle.pinned p) in
  let ends (k : Constraint.t float) :=
    (Constraint.p1 k, Constraint.p2 k, Constraint.active k) in
  ((nan_particles (frames 119),
    place <$> (particles (frames 119) !! 2%nat),
    place <$> (particles (frames 119) !! 4%nat),
    ends <$> (constraints (frames 119) !! 4%nat))
   = ([], Some (150%float, 300%float, false),
      Some (150%float, 300%float, false), Some (2%nat, 4%nat, true)))
  /\
  ((List.length (free_particles (frames 120)),
    List.length (nan_particles (frames 120)))
   = (118%nat, 118%nat)).
Proof.
  split.
  - vm_compute. reflexivity.
  - vm_compute. reflexivity.
Qed.

(** ** The floor *)

Section FloorAnyArithmetic.
Context {num : Type} {N : Number num}.
Local Open Scope num_scope.

Lemma integrate_at_floor (cfg : Config.t num) (p : Particle.t num) :
  Particle.pinned p = false ->
  let vx := (Particle.x p - Particle.oldx p) * Config.friction cfg in
  let vy := (Particle.y p - Particle.oldy p) * Config.friction cfg in
  (Particle.y p + (vy + Config.gravity cfg) >? of_Z 300) = true ->
  let p' := integrate cfg p in
  Particle.y p' = of_Z 300 /\
  Particle.x p' = Particle.x p + vx /\
  Particle.oldy p' =
    (if vy >? of_Z 0 then of_Z 300 - vy * dec 1 1 else of_Z 300) /\
  Particle.oldx p' = Particle.x p' - vx * dec 4 1 /\
  Particle.pinned p' = false.
Proof.
  intros Hp vx vy Hfloor p'. subst p'. unfold integrate.
  rewrite Hp. cbn [Particle.set_oldx Particle.set_oldy Particle.set_x
                   Particle.set_y Particle.x Particle.y Particle.oldx
                   Particle.oldy Particle.pinned].
  fold vx vy. rewrite Hfloor.
  destruct (vy >? of_Z 0); simpl; auto.
Qed.

(** [updatePhysics] ends with [integrate] on every particle, as relaxation
    left it. *)
Lemma updatePhysics_integrates (c c' : Cloth num) :
  updatePhysics c = Normal c' ->
  exists ps,
    relax (config c) (constraints c) (particles c) = Normal ps /\
    particles c' = map (integrate (config c)) ps.
Proof.
  unfold updatePhysics.
  destruct (relax _ _ _) as [ps|ps]; simpl; [|discriminate].
  intros H. inversion H; subst. exists ps. split; reflexivity.
Qed.

End FloorAnyArithmetic.

Section FloorExact.
Local Open Scope R_scope.

Lemma Real_ltb_true (a b : R) : ltb (Number := Real) a b = true <-> a < b.
Proof. simpl. destruct (Rlt_dec a b); split; auto; discriminate. Qed.

End FloorExact.

(** C4. Floor collision in [updatePhysics], which ends by integrating every
    particle.  For a free particle that integration carries below the floor
    ([y > 300]):
    - in every arithmetic, binary64 included: [y] becomes exactly 300, [oldy]
      becomes [300 - vy * 0.1] when [vy > 0] and 300 otherwise, and [oldx]
      becomes [x - vx * 0.4] ([vx], [vy] the velocities of the frame,
      friction applied);
    - read on the reals: the vertical velocity implied for the next frame,
      [y - oldy], is [vy / 10] when the particle was moving down, which is
      at most a fifth of [vy] (and of [vy + gravity], the displacement of
      the frame, when gravity is not negative) and not negative (no
      bounce), and is 0 otherwise; the implied horizontal velocity, [x - oldx], is [0.4 * vx],
      no larger than [vx] in size. *)
Theorem floor_collision_damps_without_bounce :
  (forall num (N : Number num) (c c' : Cloth num),
      updatePhysics c = Normal c' ->
      exists ps,
        relax (config c) (constraints c) (particles c) = Normal ps /\
        particles c' = map (integrate (config c)) ps) /\
  (forall num (N : Number num) (cfg : Config.t num) (p : Particle.t num),
      Particle.pinned p = false ->
      let vx := ((Particle.x p - Particle.oldx p) * Config.friction cfg)%num in
      let vy := ((Particle.y p - Particle.oldy p) * Config.friction cfg)%num in
      (Particle.y p + (vy + Config.gravity cfg) >? of_Z 300)%num = true ->
      let p' := integrate cfg p in
      Particle.y p' = of_Z 300 /\
      Particle.x p' = (Particle.x p + vx)%num /\
      Particle.oldy p' =
        (if vy >? of_Z 0 then of_Z 300 - vy * dec 1 1 else of_Z 300)%num /\
      Particle.oldx p' = (Particle.x p' - vx * dec 4 1)%num /\
      Particle.pinned p' = false) /\
  (forall (cfg : Config.t R) (p : Particle.t R),
      Particle.pinned p = false ->
      let vx := ((Particle.x p - Particle.oldx p) * Config.friction cfg)%R in
      let vy := ((Particle.y p - Particle.oldy p) * Config.friction cfg)%R in
      (300 < Particle.y p + (vy + Config.gravity cfg))%R ->
      let p' := integrate (N := Real) cfg p in
      Particle.y p' = 300%R /\
      ((0 < vy)%R ->
       (Particle.y p' - Particle.oldy p' = vy / 10)%R /\
       (0 < Particle.y p' - Particle.oldy p' <= (1 - 80 / 100) * vy)%R /\
       ((0 <= Config.gravity cfg)%R ->
        (Particle.y p' - Particle.oldy p'
         <= (1 - 80 / 100) * (vy + Config.gravity cfg))%R)) /\
      ((vy <= 0)%R -> (Particle.y p' - Particle.oldy p' = 0)%R) /\
      (Particle.x p' - Particle.oldx p' = 4 / 10 * vx)%R /\
      (Rabs (Particle.x p' - Particle.oldx p') <= Rabs vx)%R).
Proof.
  split; [|split].
  - intros num N c c'. apply updatePhysics_integrates.
  - intros num N cfg p. apply integrate_at_floor.
  - intros cfg p Hp vx vy Hfloor p'.
    assert (Hltb : ltb (Number := Real) (of_Z 300)
                     (add (Particle.y p) (add vy (Config.gravity cfg))) = true)
      by (apply Real_ltb_true; exact Hfloor).
    destruct (integrate_at_floor (N := Real) cfg p Hp Hltb)
      as (Hy & Hx & Hoy & Hox & _).
    fold p' in Hy, Hx, Hoy, Hox.
    change (@of_Z R Real 300) with 300%R in *.
    change (@of_Z R Real 0) with 0%R in *.
    change (@dec R Real 1 1) with (1 / 10)%R in *.
    change (@dec R Real 4 1) with (4 / 10)%R in *.
    cbn [add sub mul Real] in Hx, Hoy, Hox.
    fold vx vy in Hx, Hoy, Hox.
    rewrite Hy, Hox.
    split; [reflexivity|]. split; [|split; [|split]].
    + intros Hvy.
      rewrite (proj2 (Real_ltb_true 0%R vy) Hvy) in Hoy.
      rewrite Hoy. split; [lra|]. split; [lra|]. intros Hg. lra.
    + intros Hvy.
      destruct (ltb (Number := Real) 0%R vy) eqn:Hlt.
      * apply Real_ltb_true in Hlt. lra.
      * rewrite Hoy. lra.
    + lra.
    + replace (Particle.x p' - (Particle.x p' - vx * (4 / 10)))%R
        with (4 / 10 * vx)%R by lra.
      rewrite Rabs_mult, (Rabs_pos_eq (4 / 10)) by lra.
      pose proof (Rabs_pos vx). lra.
Qed.

(** A Denim particle at [y = 299] that fell ten units in the last frame, on
    binary64 and on the reals. *)
Lemma floor_collision_damps_without_bounce_witness :
  Particle.y (integrate (N := F64) DENIM
                (Particle.mk 0%float 299%float 0%float 289%float false))
    = 300%float /\
  Particle.y (integrate (N := Real) DENIM RealSample.falling) = 300%R /\
  (Particle.x (integrate (N := Real) DENIM RealSample.falling) -
   Particle.oldx (integrate (N := Real) DENIM RealSample.falling)
   = 4 / 10 * ((0 - -5) * (90 / 100)))%R.
Proof.
  split; [|split].
  - exact (proj1 (proj1 (proj2 floor_collision_damps_without_bounce)
                    float F64 DENIM
                    (Particle.mk 0%float 299%float 0%float 289%float false)
                    eq_refl eq_refl)).
  - refine (proj1 (proj2 (proj2 floor_collision_damps_without_bounce)
                     (DENIM (N := Real)) RealSample.falling eq_refl _)).
    cbv [DENIM dec of_Z Real div RealSample.falling Particle.x Particle.y
         Particle.oldx Particle.oldy Config.friction Config.gravity].
    change (10 ^ Z.of_nat 2)%Z with 100%Z. lra.
  - refine (proj1 (proj2 (proj2 (proj2
              (proj2 (proj2 floor_collision_damps_without_bounce)
                 (DENIM (N := Real)) RealSample.falling eq_refl _))))).
    cbv [DENIM dec of_Z Real div RealSample.falling Particle.x Particle.y
         Particle.oldx Particle.oldy Config.friction Config.gravity].
    change (10 ^ Z.of_nat 2)%Z with 100%Z. lra.
Defined.

(** The floor branch of the earlier copy, read on the reals: it mirrors the
    velocity instead of damping it. *)
Remark legacy_floor_reflects (cfg : Config.t R) (p : Particle.t R) :
  Particle.pinned p = false ->
  let vy := ((Particle.y p - Particle.oldy p) * Config.friction cfg)%R in
  (300 < Particle.y p + (vy + Config.gravity cfg))%R ->
  let p' := Legacy.integrate (N := Real) cfg p in
  Particle.y p' = 300%R /\ (Particle.y p' - Particle.oldy p' = - vy)%R.
Proof.
  intros Hp vy Hfloor p'. subst p'. unfold Legacy.integrate. rewrite Hp.
  cbn [Particle.set_oldx Particle.set_oldy Particle.set_x Particle.set_y
       Particle.x Particle.y Particle.oldx Particle.oldy].
  change (@of_Z R Real 300) with 300%R.
  cbn [add sub mul Real]. fold vy.
  rewrite (proj2 (Real_ltb_true 300%R _) Hfloor). simpl. split; [reflexivity|lra].
Qed.

(** ** The wind operator *)

Section WindAnyArithmetic.
Context {num : Type} {N : Number num}.
Local Open Scope num_scope.

Lemma windParticle_cases (mouse : Mouse.t num) (cfg : Config.t num)
    (p : Particle.t num) :
  let dx := Particle.x p - Mouse.x mouse in
  let dy := Particle.y p - Mouse.y mouse in
  let dist := sqrt (dx * dx + dy * dy) in
  let force := (of_Z 80 - dist) / of_Z 80 in
  let p' := windParticle mouse cfg p in
  ((dist <? of_Z 80) = true -> Particle.pinned p = false ->
   p' = Particle.set_xy
          (Particle.x p + dx * (force * Config.mouseInfluence cfg))
          (Particle.y p + dy * (force * Config.mouseInfluence cfg)) p) /\
  (Particle.pinned p = true -> p' = p) /\
  ((dist <? of_Z 80) = false -> p' = p).
Proof.
  intros dx dy dist force p'. subst p'. unfold windParticle.
  fold dx dy. fold dist. fold force.
  repeat split.
  - intros -> ->. reflexivity.
  - intros ->. destruct (dist <? of_Z 80); reflexivity.
  - intros ->. reflexivity.
Qed.

End WindAnyArithmetic.

Section WindBinary64.
Variable math_hypot : float -> float -> float.
Local Open Scope float_scope.

(** A particle at the centre of the push, on binary64: the distance is
    [+0] and the force is 1; the only division is by the radius. *)
Lemma wind_at_centre (mouse : Mouse.t float) (p : Particle.t float) :
  Particle.x p = Mouse.x mouse -> Particle.y p = Mouse.y mouse ->
  PrimFloat.is_finite (Particle.x p) = true ->
  PrimFloat.is_finite (Particle.y p) = true ->
  let dx := Particle.x p - Mouse.x mouse in
  let dy := Particle.y p - Mouse.y mouse in
  let dist := PrimFloat.sqrt (dx * dx + dy * dy) in
  dx = 0 /\ dy = 0 /\ dist = 0 /\ (dist <? 80) = true /\ (80 - dist) / 80 = 1.
Proof.
  intros Hx Hy Fx Fy dx dy dist. subst dist dx dy.
  rewrite <- Hx, <- Hy, !sub_diag_finite by assumption.
  repeat split; reflexivity.
Qed.

End WindBinary64.

(** C8. [applyWind], particle by particle.
    - In every arithmetic, binary64 included: a free particle whose distance
      [dist] to the centre is below the radius 80 moves to
      [p + delta * (force * mouseInfluence)], with [delta] the vector from
      the centre to the particle and [force = (80 - dist) / 80]; a pinned
      particle, and a particle at distance 80 or more, is left as it is;
      constraints are not touched.
    - On binary64, a particle exactly at the centre (finite coordinates) has
      [dist = 0] and [force = 1]; nothing is divided by [dist].
    - On the reals the displacement is [delta * force * mouseInfluence], and
      the force is [1 - dist / 80], between 0 (at the edge, excluded) and 1
      (at the centre). *)
Theorem wind_pushes_with_linear_falloff :
  (forall num (N : Number num) (mouse : Mouse.t num) (c : Cloth num)
          (i : nat) (p : Particle.t num),
      particles c !! i = Some p ->
      let dx := (Particle.x p - Mouse.x mouse)%num in
      let dy := (Particle.y p - Mouse.y mouse)%num in
      let dist := sqrt (dx * dx + dy * dy)%num in
      let force := ((of_Z 80 - dist) / of_Z 80)%num in
      exists p',
        particles (applyWind mouse c) !! i = Some p' /\
        ((dist <? of_Z 80)%num = true -> Particle.pinned p = false ->
         p' = Particle.set_xy
                (Particle.x p + dx * (force * Config.mouseInfluence (config c)))%num
                (Particle.y p + dy * (force * Config.mouseInfluence (config c)))%num
                p) /\
        (Particle.pinned p = true -> p' = p) /\
        ((dist <? of_Z 80)%num = false -> p' = p) /\
        constraints (applyWind mouse c) = constraints c) /\
  (forall (math_hypot : float -> float -> float)
          (mouse : Mouse.t float) (cfg : Config.t float) (p : Particle.t float),
      Particle.x p = Mouse.x mouse -> Particle.y p = Mouse.y mouse ->
      PrimFloat.is_finite (Particle.x p) = true ->
      PrimFloat.is_finite (Particle.y p) = true ->
      let dx := (Particle.x p - Mouse.x mouse)%float in
      let dy := (Particle.y p - Mouse.y mouse)%float in
      let dist := PrimFloat.sqrt (dx * dx + dy * dy)%float in
      dist = 0%float /\
      ((80 - dist) / 80)%float = 1%float /\
      windParticle (N := Float64 math_hypot) mouse cfg p =
        if Particle.pinned p then p
        else Particle.set_xy
               (Particle.x p + 0 * (1 * Config.mouseInfluence cfg))%float
               (Particle.y p + 0 * (1 * Config.mouseInfluence cfg))%float p) /\
  (forall (mouse : Mouse.t R) (cfg : Config.t R) (p : Particle.t R),
      Particle.pinned p = false ->
      let dx := (Particle.x p - Mouse.x mouse)%R in
      let dy := (Particle.y p - Mouse.y mouse)%R in
      let dist := R_sqrt.sqrt (dx * dx + dy * dy)%R in
      let force := (1 - dist / 80)%R in
      (dist < 80)%R ->
      let p' := windParticle (N := Real) mouse cfg p in
      (Particle.x p' - Particle.x p = dx * force * Config.mouseInfluence cfg)%R /\
      (Particle.y p' - Particle.y p = dy * force * Config.mouseInfluence cfg)%R /\
      (0 < force <= 1)%R /\
      (dist = 0 -> force = 1)%R).
Proof.
  split; [|split].
  - intros num N mouse c i p Hi dx dy dist force.
    exists (windParticle mouse (config c) p). split.
    + unfold applyWind. simpl. rewrite list_lookup_fmap, Hi. reflexivity.
    + destruct (windParticle_cases mouse (config c) p) as (H1 & H2 & H3).
      repeat split; assumption.
  - intros math_hypot mouse cfg p Hx Hy Fx Fy dx dy dist.
    destruct (wind_at_centre mouse p Hx Hy Fx Fy)
      as (Hdx & Hdy & Hdist & Hlt & Hforce).
    fold dx dy in Hdx, Hdy, Hdist, Hlt, Hforce. fold dist in Hdist, Hlt, Hforce.
    split; [exact Hdist|]. split; [exact Hforce|].
    unfold windParticle.
    change (@of_Z float (Float64 math_hypot) 80) with 80%float.
    cbn [add sub mul div sqrt ltb Float64].
    fold dx dy. fold dist. rewrite Hlt, Hforce, Hdx, Hdy.
    destruct (Particle.pinned p); reflexivity.
  - intros mouse cfg p Hp dx dy dist force Hlt p'.
    destruct (windParticle_cases (N := Real) mouse cfg p) as (H1 & _ & _).
    change (@of_Z R Real 80) with 80%R in H1.
    cbn [add sub mul div sqrt ltb Real] in H1.
    fold dx dy in H1. fold dist in H1.
    fold p' in H1.
    destruct (Rlt_dec dist 80) as [_|Hn]; [|contradiction].
    rewrite (H1 eq_refl Hp). cbn [Particle.x Particle.y Particle.set_xy].
    assert (0 <= dist)%R by apply sqrt_pos.
    subst force. split; [field|]. split; [field|]. split; [lra|].
    intros ->. lra.
Qed.

(** A free particle 50 units from the centre, on the reals, and the first
    particle of [Sample.hanging] under a push centred on it. *)
Lemma wind_pushes_with_linear_falloff_witness :
  (exists p', particles (applyWind (N := F64) (Sample.mouse 0 0 0 (-250))
                                   Sample.hanging) !! 0%nat = Some p') /\
  PrimFloat.sqrt ((0 - 0) * (0 - 0) + (-250 - -250) * (-250 - -250))%float
    = 0%float /\
  (0 < 1 - R_sqrt.sqrt ((30 - 0) * (30 - 0) + (40 - 0) * (40 - 0)) / 80 <= 1)%R.
Proof.
  split; [|split].
  - destruct (proj1 wind_pushes_with_linear_falloff float F64
                (Sample.mouse 0 0 0 (-250)) Sample.hanging 0%nat
                (Sample.particle 0 (-250) true) eq_refl)
      as (p' & Hp' & _).
    exists p'. exact Hp'.
  - exact (proj1 (proj1 (proj2 wind_pushes_with_linear_falloff) naive_hypot
                    (Sample.mouse 0 0 0 (-250)) (DENIM (N := F64))
                    (Sample.particle 0 (-250) true)
                    eq_refl eq_refl eq_refl eq_refl)).
  - refine (proj1 (proj2 (proj2
              (proj2 (proj2 wind_pushes_with_linear_falloff)
                 RealSample.centre (DENIM (N := Real)) RealSample.nearby
                 eq_refl _)))).
    cbv [RealSample.centre RealSample.nearby Particle.x Particle.y
         Mouse.x Mouse.y].
    replace ((30 - 0) * (30 - 0) + (40 - 0) * (40 - 0))%R with (50 * 50)%R
      by lra.
    rewrite sqrt_square by lra. lra.
Defined.

(** ** No operation throws on a well indexed cloth *)

Section NoThrow.
Context {num : Type} {N : Number num}.

Lemma foldM_Normal {A S} (I : S -> Prop) (body : A -> S -> completion S)
    (l : list A) :
  (forall a, In a l -> forall s, I s -> exists s', body a s = Normal s' /\ I s') ->
  forall s, I s -> exists s', foldM body l s = Normal s' /\ I s'.
Proof.
  induction l as [|a l IH]; intros Hbody s Hs; simpl; [eauto|].
  destruct (Hbody a (or_introl eq_refl) s Hs) as (s1 & -> & Hs1). simpl.
  apply IH; [|exact Hs1]. intros b Hb. apply Hbody. right. exact Hb.
Qed.

Lemma forEach_map {A} (body : A -> completion A) (f : A -> A) (l : list A) :
  (forall a, In a l -> body a = Normal (f a)) ->
  forEach body l = Normal (map f l).
Proof.
  induction l as [|a l IH]; intros H; simpl; [reflexivity|].
  rewrite (H a (or_introl eq_refl)), IH; [reflexivity|].
  intros b Hb. apply H. right. exact Hb.
Qed.

Lemma well_indexed_in (c : Cloth num) (k : Constraint.t num) :
  well_indexed c = true -> In k (constraints c) ->
  (Constraint.p1 k < List.length (particles c))%nat /\
  (Constraint.p2 k < List.length (particles c))%nat.
Proof.
  unfold well_indexed. rewrite forallb_forall. intros H Hk.
  specialize (H k Hk). apply andb_prop in H as [H1 H2].
  split; apply Nat.ltb_lt; assumption.
Qed.

Lemma relaxConstraint_Normal cfg (k : Constraint.t num) ps :
  (Constraint.p1 k < List.length ps)%nat ->
  (Constraint.p2 k < List.length ps)%nat ->
  exists ps', relaxConstraint cfg k ps = Normal ps' /\
              List.length ps' = List.length ps.
Proof.
  intros H1 H2. unfold relaxConstraint.
  destruct (Constraint.active k); simpl; [|eauto].
  destruct (lookup_lt_is_Some_2 _ _ H1) as [pa ->].
  destruct (lookup_lt_is_Some_2 _ _ H2) as [pb ->].
  eexists. split; [reflexivity|].
  destruct (negb (Particle.pinned pb)), (negb (Particle.pinned pa));
    rewrite ?length_alter; reflexivity.
Qed.

Lemma relax_Normal (c : Cloth num) :
  well_indexed c = true ->
  exists ps, relax (config c) (constraints c) (particles c) = Normal ps /\
             List.length ps = List.length (particles c).
Proof.
  intros Hwf. unfold relax, for_.
  apply (foldM_Normal
           (fun ps => List.length ps = List.length (particles c)));
    [|reflexivity].
  intros _ _ ps Hps. unfold relaxPass.
  apply (foldM_Normal
           (fun ps => List.length ps = List.length (particles c)));
    [|exact Hps].
  intros k Hk ps' Hps'.
  destruct (well_indexed_in c k Hwf Hk) as [H1 H2].
  destruct (relaxConstraint_Normal (config c) k ps') as (ps'' & Hr & Hl);
    [rewrite Hps'; exact H1 | rewrite Hps'; exact H2 |].
  exists ps''. split; [exact Hr | congruence].
Qed.

Lemma updatePhysics_Normal (c : Cloth num) :
  well_indexed c = true -> exists c', updatePhysics c = Normal c'.
Proof.
  intros Hwf. destruct (relax_Normal c Hwf) as (ps & Hps & _).
  unfold updatePhysics. rewrite Hps. simpl. eauto.
Qed.

Lemma exec_well_indexed (o : op) (c : Cloth num) :
  well_indexed c = true -> well_indexed (state_of (exec o c)) = true.
Proof.
  apply well_indexed_preserved.
  - apply keeps_pins_length, exec_keeps_pins.
  - apply exec_never_reactivates.
Qed.

(** **** Cuts as maps *)

Lemma severed_fields mouse ps (k : Constraint.t num) :
  severed mouse ps k =
  Constraint.mk (Constraint.p1 k) (Constraint.p2 k) (Constraint.length k)
                (Constraint.active k && negb (crosses mouse ps k)).
Proof.
  unfold severed, crosses. destruct k as [i j l act]; simpl.
  destruct (ps !! i); [destruct (ps !! j)|];
    try (rewrite andb_true_r; reflexivity).
  destruct act; simpl; [|reflexivity].
  destruct (lineIntersect _ _ _ _ _ _ _ _); reflexivity.
Qed.

Lemma crosses_severed mouse mouse' ps (k : Constraint.t num) :
  crosses mouse ps (severed mouse' ps k) = crosses mouse ps k.
Proof. rewrite severed_fields. reflexivity. Qed.

Lemma cutConstraint_severed mouse ps (k : Constraint.t num) :
  (Constraint.p1 k < List.length ps)%nat ->
  (Constraint.p2 k < List.length ps)%nat ->
  cutConstraint mouse ps k = Normal (severed mouse ps k).
Proof.
  intros H1 H2. unfold cutConstraint, severed.
  destruct (lookup_lt_is_Some_2 _ _ H1) as [pa ->].
  destruct (lookup_lt_is_Some_2 _ _ H2) as [pb ->].
  destruct (Constraint.active k); simpl; [|reflexivity].
  destruct (lineIntersect _ _ _ _ _ _ _ _); reflexivity.
Qed.

Lemma cutCloth_map mouse (c : Cloth num) :
  well_indexed c = true ->
  cutCloth mouse c =
  Normal (set_constraints c (map (severed mouse (particles c)) (constraints c))).
Proof.
  intros Hwf. unfold cutCloth.
  rewrite (forEach_map _ (severed mouse (particles c))); [reflexivity|].
  intros k Hk. destruct (well_indexed_in c k Hwf Hk).
  apply cutConstraint_severed; assumption.
Qed.

Lemma cut_well_indexed mouse (c : Cloth num) :
  well_indexed c = true ->
  well_indexed
    (set_constraints c (map (severed mouse (particles c)) (constraints c)))
  = true.
Proof.
  intros Hwf.
  pose proof (exec_well_indexed (CutAlongSegment mouse) c Hwf) as H.
  simpl in H. rewrite (cutCloth_map mouse c Hwf) in H. exact H.
Qed.

Lemma applyCut_map mouse (cloths : list (Cloth num)) :
  forallb well_indexed cloths = true ->
  applyCut mouse cloths = Normal (map (cutBy mouse) cloths) /\
  forallb well_indexed (map (cutBy mouse) cloths) = true.
Proof.
  intros Hwf. rewrite forallb_forall in Hwf. split.
  - unfold applyCut. apply forEach_map. intros c Hc.
    apply cutCloth_map, Hwf, Hc.
  - apply forallb_forall. intros c' Hc'.
    apply in_map_iff in Hc' as (c & <- & Hc).
    apply cut_well_indexed, Hwf, Hc.
Qed.

End NoThrow.

(** X1. On a cloth whose constraints index existing particles, [updatePhysics],
    [applyCut] and [applyWind] each end normally (no [TypeError]) and leave
    the cloth in such a state again; so no operation ever throws on a
    cloth built by [init]. *)
Theorem operations_end_normally_when_well_indexed
    {num : Type} {N : Number num} (o : op) (c : Cloth num) :
  well_indexed c = true ->
  exists c', exec o c = Normal c' /\ well_indexed c' = true.
Proof.
  intros Hwf.
  assert (Hn : exists c', exec o c = Normal c').
  { destruct o as [|mouse|mouse]; simpl.
    - apply updatePhysics_Normal, Hwf.
    - rewrite (cutCloth_map mouse c Hwf). eauto.
    - eauto. }
  destruct Hn as [c' Hc']. exists c'. split; [exact Hc'|].
  pose proof (exec_well_indexed o c Hwf) as H. rewrite Hc' in H. exact H.
Qed.

(** A step of [Sample.hanging]. *)
Lemma operations_end_normally_when_well_indexed_witness :
  exists c', exec (N := F64) Step Sample.hanging = Normal c' /\
             well_indexed c' = true.
Proof.
  apply (operations_end_normally_when_well_indexed (N := F64) Step
           Sample.hanging).
  reflexivity.
Defined.

(** X2. Cutting twice along the same segment is cutting once: the second
    [applyCut], with the particles where they were, changes nothing. *)
Theorem cutting_twice_is_cutting_once
    {num : Type} {N : Number num} (mouse : Mouse.t num) (c : Cloth num) :
  well_indexed c = true ->
  exists c1, cutCloth mouse c = Normal c1 /\ cutCloth mouse c1 = Normal c1.
Proof.
  intros Hwf. eexists. split; [apply cutCloth_map, Hwf|].
  rewrite cutCloth_map by (apply cut_well_indexed, Hwf).
  unfold set_constraints. simpl. f_equal. f_equal.
  rewrite map_map. apply map_ext. intros k.
  rewrite (severed_fields mouse _ (severed mouse _ k)), crosses_severed.
  rewrite (severed_fields mouse _ k). simpl.
  f_equal. destruct (Constraint.active k), (crosses mouse (particles c) k);
    reflexivity.
Qed.

(** The cut of the example, twice. *)
Lemma cutting_twice_is_cutting_once_witness :
  exists c1,
    cutCloth (N := F64) (Sample.mouse 5 (-5) 5 5) Sample.span = Normal c1 /\
    cutCloth (N := F64) (Sample.mouse 5 (-5) 5 5) c1 = Normal c1.
Proof.
  apply (cutting_twice_is_cutting_once (N := F64)). reflexivity.
Defined.

(** X3. Two cuts commute: cutting along one segment and then along another
    leaves the same cloth as cutting in the other order. *)
Theorem cuts_commute
    {num : Type} {N : Number num} (m1 m2 : Mouse.t num) (c : Cloth num) :
  well_indexed c = true ->
  exists c12,
    cutCloth m1 c >>> cutCloth m2 = Normal c12 /\
    cutCloth m2 c >>> cutCloth m1 = Normal c12.
Proof.
  intros Hwf. eexists. split.
  - rewrite (cutCloth_map m1 c Hwf). simpl.
    rewrite cutCloth_map by (apply cut_well_indexed, Hwf). reflexivity.
  - rewrite (cutCloth_map m2 c Hwf). simpl.
    rewrite cutCloth_map by (apply cut_well_indexed, Hwf).
    unfold set_constraints. simpl. f_equal. f_equal.
    rewrite !map_map. apply map_ext. intros k.
    rewrite (severed_fields m1 _ (severed m2 _ k)), crosses_severed.
    rewrite (severed_fields m2 _ (severed m1 _ k)), crosses_severed.
    rewrite !severed_fields. simpl. f_equal.
    destruct (Constraint.active k), (crosses m1 (particles c) k),
      (crosses m2 (particles c) k); reflexivity.
Qed.

(** A crossing cut and a missing one, in both orders. *)
Lemma cuts_commute_witness :
  exists c12,
    cutCloth (N := F64) (Sample.mouse 5 (-5) 5 5) Sample.span
      >>> cutCloth (Sample.mouse 5 5 5 15) = Normal c12 /\
    cutCloth (N := F64) (Sample.mouse 5 5 5 15) Sample.span
      >>> cutCloth (Sample.mouse 5 (-5) 5 5) = Normal c12.
Proof.
  apply (cuts_commute (N := F64)). reflexivity.
Defined.

(** X4. One frame of [animate] on well indexed cloths ends normally; every
    cloth is stepped on its own, and pushed by the wind exactly when the
    right button is held; the cloths are well indexed afterwards. *)
Theorem frame_steps_every_cloth
    {num : Type} {N : Number num} (mouse : Mouse.t num)
    (cloths : list (Cloth num)) :
  forallb well_indexed cloths = true ->
  animate mouse cloths = Normal (map (framed mouse) cloths) /\
  forallb well_indexed (map (framed mouse) cloths) = true.
Proof.
  intros Hwf. rewrite forallb_forall in Hwf. split.
  - unfold animate. apply forEach_map. intros c Hc.
    destruct (updatePhysics_Normal c (Hwf c Hc)) as [c' Hc'].
    unfold framed. rewrite Hc'. reflexivity.
  - apply forallb_forall. intros c' Hc'.
    apply in_map_iff in Hc' as (c & <- & Hc).
    unfold framed.
    pose proof (exec_well_indexed Step c (Hwf c Hc)) as Hstep. simpl in Hstep.
    destruct (Mouse.isRight mouse); [|exact Hstep].
    exact (exec_well_indexed (ApplyRadialImpulse mouse) _ Hstep).
Qed.

(** A frame over two sample cloths, the right button held. *)
Lemma frame_steps_every_cloth_witness :
  animate (N := F64) (Sample.mouse 0 0 0 (-200))
          [Sample.hanging; Sample.span]
  = Normal (map (framed (Sample.mouse 0 0 0 (-200)))
                [Sample.hanging; Sample.span]) /\
  forallb well_indexed
    (map (framed (N := F64) (Sample.mouse 0 0 0 (-200)))
         [Sample.hanging; Sample.span]) = true.
Proof.
  apply (frame_steps_every_cloth (N := F64)). reflexivity.
Defined.

(** X5. [applyCut] over the cloths of the page: when they are well indexed
    the call ends normally, every cloth is cut by the same segment against
    its own particles, and no particle, profile or offset changes. *)
Theorem applyCut_cuts_every_cloth
    {num : Type} {N : Number num} (mouse : Mouse.t num)
    (cloths : list (Cloth num)) :
  forallb well_indexed cloths = true ->
  applyCut mouse cloths =
    Normal (map (fun c => set_constraints c
                            (map (severed mouse (particles c)) (constraints c)))
                cloths) /\
  forall cloths', applyCut mouse cloths = Normal cloths' ->
    map particles cloths' = map particles cloths /\
    map config cloths' = map config cloths /\
    map offsetX cloths' = map offsetX cloths /\
    forallb well_indexed cloths' = true.
Proof.
  intros Hwf. rewrite forallb_forall in Hwf.
  assert (Hcut : applyCut mouse cloths =
                 Normal (map (fun c => set_constraints c
                            (map (severed mouse (particles c)) (constraints c)))
                             cloths)).
  { unfold applyCut. apply forEach_map. intros c Hc.
    apply cutCloth_map, Hwf, Hc. }
  split; [exact Hcut|].
  intros cloths' H. rewrite Hcut in H. inversion H; subst. clear H.
  rewrite !map_map. simpl. repeat split.
  apply forallb_forall. intros c' Hc'.
  apply in_map_iff in Hc' as (c & <- & Hc).
  apply cut_well_indexed, Hwf, Hc.
Qed.

(** The crossing cut over two sample cloths. *)
Lemma applyCut_cuts_every_cloth_witness :
  applyCut (N := F64) (Sample.mouse 5 (-5) 5 5) [Sample.span; Sample.hanging]
  = Normal (map (fun c => set_constraints c
                   (map (severed (Sample.mouse 5 (-5) 5 5) (particles c))
                        (constraints c)))
                [Sample.span; Sample.hanging]).
Proof.
  apply (applyCut_cuts_every_cloth (N := F64)). reflexivity.
Defined.

(** ** The render buffers *)

Section Buffers.
Context {num : Type} {N : Number num} {G : Rendering num}.

Lemma pairs_length {A} (a b : A -> nat) (l : list A) :
  List.length (flat_map (fun k => [a k; b k]) l) = (2 * List.length l)%nat.
Proof. induction l as [|k l IH]; simpl; [reflexivity | rewrite IH; lia]. Qed.

Lemma pairs_lookup {A} (a b : A -> nat) (l : list A) (i : nat) (k : A) :
  l !! i = Some k ->
  flat_map (fun k => [a k; b k]) l !! (2 * i)%nat = Some (a k) /\
  flat_map (fun k => [a k; b k]) l !! (2 * i + 1)%nat = Some (b k).
Proof.
  revert i. induction l as [|k0 l IH]; intros i Hi; [destruct i; discriminate|].
  destruct i as [|i]; simpl in Hi.
  - inversion Hi; subst. split; reflexivity.
  - replace (2 * S i)%nat with (S (S (2 * i))) by lia.
    replace (S (S (2 * i)) + 1)%nat with (S (S (2 * i + 1))) by lia.
    simpl. apply IH, Hi.
Qed.

Lemma index_as_pairs (c : Cloth num) :
  index (updateGeometry c) =
  flat_map (fun k => [if Constraint.active k then Constraint.p1 k else 0%nat;
                      if Constraint.active k then Constraint.p2 k else 0%nat])
           (constraints c).
Proof.
  unfold updateGeometry. simpl. apply flat_map_ext. intros k.
  destruct (Constraint.active k); reflexivity.
Qed.

Lemma position_length (c : Cloth num) :
  List.length (position (updateGeometry c)) =
  (3 * List.length (particles c))%nat.
Proof.
  unfold updateGeometry. simpl.
  induction (particles c) as [|p ps IH]; simpl; [reflexivity | rewrite IH; lia].
Qed.

Lemma index_in_range (c : Cloth num) :
  well_indexed c = true ->
  Forall (fun i => (i < List.length (particles c))%nat)
         (index (updateGeometry c)).
Proof.
  intros Hwf. rewrite index_as_pairs.
  apply Forall_forall. intros i Hi.
  apply list_elem_of_In, in_flat_map in Hi as (k & Hk & Hi).
  destruct (well_indexed_in c k Hwf Hk) as [H1 H2].
  destruct Hi as [<-|[<-|[]]]; destruct (Constraint.active k); lia.
Qed.

(** **** Sizes and endpoints through the operations *)

Lemma run_sizes (ops : list op) (c : Cloth num) :
  let s := run ops (state_of (init c)) in
  List.length (particles s) =
    (Config.particlesX (config c) * Config.particlesY (config c))%nat /\
  List.length (constraints s) =
    (Config.particlesX (config c) * (Config.particlesY (config c) - 1) +
     (Config.particlesX (config c) - 1) * Config.particlesY (config c))%nat.
Proof.
  intros s. subst s. split.
  - rewrite (keeps_pins_length _ _ (run_keeps_pins ops _)).
    rewrite (init_Normal c). simpl. apply generateParticles_length.
  - rewrite <- (Forall2_length _ _ _ (run_never_reactivates ops _)).
    rewrite (init_Normal c). simpl.
    apply springsOfGrid_length, generateParticles_length.
Qed.

Lemma init_endpoints_ordered (c : Cloth num) (k : Constraint.t num) :
  In k (constraints (state_of (init c))) ->
  (Constraint.p1 k < Constraint.p2 k)%nat.
Proof.
  rewrite (init_Normal c). simpl. intros Hk.
  apply in_springsOfGrid in Hk as (x & y & Hx & Hy & Hk).
  destruct Hk as [[_ Hk]|[_ Hk]];
    apply in_spring in Hk as (pa & pb & _ & _ & ->); simpl;
    unfold getIdx; nia.
Qed.

Lemma run_endpoints_ordered (ops : list op) (c : Cloth num) (i : nat)
    (k : Constraint.t num) :
  constraints (run ops (state_of (init c))) !! i = Some k ->
  (Constraint.p1 k < Constraint.p2 k)%nat.
Proof.
  intros Hi.
  destruct (Forall2_lookup_r _ _ _ _ _ (run_never_reactivates ops _) Hi)
    as (k0 & Hi0 & H1 & H2 & _).
  rewrite H1, H2. apply (init_endpoints_ordered c).
  apply list_elem_of_In. eapply list_elem_of_lookup_2. exact Hi0.
Qed.

End Buffers.

(** X6. Through any sequence of steps, cuts and pushes after [init], the
    buffers that [updateGeometry] builds keep the sizes the profile fixes:
    three numbers for each of the [Nx * Ny] particles and two indices for
    each of the [Nx * (Ny - 1) + (Nx - 1) * Ny] constraints, cut or not; and
    every index is that of a particle. *)
Theorem render_buffers_keep_their_size
    {num : Type} {N : Number num} {G : Rendering num}
    (ops : list op) (c : Cloth num) :
  let Nx := Config.particlesX (config c) in
  let Ny := Config.particlesY (config c) in
  let g := updateGeometry (run ops (state_of (init c))) in
  List.length (position g) = (3 * (Nx * Ny))%nat /\
  List.length (index g) = (2 * (Nx * (Ny - 1) + (Nx - 1) * Ny))%nat /\
  Forall (fun i => (i < Nx * Ny)%nat) (index g).
Proof.
  intros Nx Ny g. subst g.
  destruct (run_sizes ops c) as [Hps Hcs]. fold Nx Ny in Hps, Hcs.
  split; [|split].
  - rewrite position_length, Hps. reflexivity.
  - rewrite index_as_pairs, pairs_length, Hcs. reflexivity.
  - rewrite <- Hps. apply index_in_range, run_well_indexed, init_well_indexed.
Qed.

(** X7. The index buffer encodes the live edges.  In any state reached from
    [init], constraint number [i] owns entries [2 i] and [2 i + 1] of the
    buffer: its two endpoints when it is active, [0, 0] when it has been
    cut; and since the endpoints of a constraint are always different
    ([p1 < p2]), the pair is a degenerate edge exactly when the constraint is
    inactive. *)
Theorem index_buffer_encodes_live_edges
    {num : Type} {N : Number num} {G : Rendering num}
    (ops : list op) (c : Cloth num) (i : nat) (k : Constraint.t num) :
  constraints (run ops (state_of (init c))) !! i = Some k ->
  let g := updateGeometry (run ops (state_of (init c))) in
  exists a b,
    index g !! (2 * i)%nat = Some a /\
    index g !! (2 * i + 1)%nat = Some b /\
    (Constraint.active k = true -> a = Constraint.p1 k /\ b = Constraint.p2 k) /\
    (Constraint.active k = false -> a = 0%nat /\ b = 0%nat) /\
    (Constraint.p1 k < Constraint.p2 k)%nat /\
    (a = b <-> Constraint.active k = false).
Proof.
  intros Hi g. subst g.
  pose proof (run_endpoints_ordered ops c i k Hi) as Hlt.
  rewrite index_as_pairs.
  destruct (pairs_lookup
              (fun k => if Constraint.active k then Constraint.p1 k else 0%nat)
              (fun k => if Constraint.active k then Constraint.p2 k else 0%nat)
              _ i k Hi) as [Ha Hb].
  eexists. eexists. split; [exact Ha|]. split; [exact Hb|].
  destruct (Constraint.active k); repeat split; try discriminate; try lia;
    auto.
Qed.

(** The top edge of [Demo.tiny]'s patch, cut. *)
Lemma index_buffer_encodes_live_edges_witness :
  let cut := CutAlongSegment (Sample.mouse 60 (-260) 60 (-240)) in
  let g := updateGeometry (N := F64) (G := Float64Rendering (fun a => a))
             (run [cut] (state_of (init Demo.patch))) in
  constraints (run (N := F64) [cut] (state_of (init Demo.patch))) !! 0%nat
    = Some (Constraint.mk 0 1 125%float false) /\
  exists a b,
    index g !! 0%nat = Some a /\ index g !! 1%nat = Some b /\ (a = b <-> false = false).
Proof.
  intros cut g.
  assert (Hk : constraints (run (N := F64) [cut] (state_of (init Demo.patch)))
               !! 0%nat = Some (Constraint.mk 0 1 125%float false))
    by reflexivity.
  split; [exact Hk|].
  destruct (index_buffer_encodes_live_edges
              (N := F64) (G := Float64Rendering (fun a => a))
              [cut] Demo.patch 0%nat _ Hk)
    as (a & b & Ha & Hb & _ & _ & _ & Hab).
  exists a, b. split; [exact Ha|]. split; [exact Hb|]. exact Hab.
Defined.

(** ** The intersection test *)

Section IntersectExact.
Local Open Scope R_scope.

Lemma Real_leb_true (a b : R) : leb (Number := Real) a b = true <-> a <= b.
Proof. simpl. destruct (Rle_dec a b); split; auto; discriminate. Qed.

Lemma Real_eqb_false (a b : R) : eqb (Number := Real) a b = false <-> a <> b.
Proof.
  simpl. destruct (Req_dec_T a b); split; auto; try discriminate.
  intros H. contradiction.
Qed.

End IntersectExact.

(** X8. On the reals [lineIntersect] is exact for segments that are not
    parallel: it answers true exactly when the denominator is not zero and
    the two segments share a point, [s] and [t] in [0,1] being the point's
    positions along the first and the second segment.  (Parallel segments
    are never reported, even when they overlap.) *)
Theorem lineIntersect_finds_the_common_point
    (x1 y1 x2 y2 x3 y3 x4 y4 : R) :
  let denom := ((y4 - y3) * (x2 - x1) - (x4 - x3) * (y2 - y1))%R in
  lineIntersect (N := Real) x1 y1 x2 y2 x3 y3 x4 y4 = true <->
  (denom <> 0 /\
   exists s t,
     0 <= s <= 1 /\ 0 <= t <= 1 /\
     x1 + s * (x2 - x1) = x3 + t * (x4 - x3) /\
     y1 + s * (y2 - y1) = y3 + t * (y4 - y3))%R.
Proof.
  intros denom.
  rewrite (lineIntersect_parametric (N := Real)).
  change (@of_Z R Real 0) with 0%R. change (@of_Z R Real 1) with 1%R.
  cbn [add sub mul div Real]. fold denom.
  rewrite Real_eqb_false, !Real_leb_true.
  set (ua := (((x4 - x3) * (y1 - y3) - (y4 - y3) * (x1 - x3)) / denom)%R).
  set (ub := (((x2 - x1) * (y1 - y3) - (y2 - y1) * (x1 - x3)) / denom)%R).
  split.
  - intros (Hd & Ha0 & Ha1 & Hb0 & Hb1). split; [exact Hd|].
    exists ua, ub. split; [lra|]. split; [lra|].
    subst ua ub. split; field_simplify_eq; try exact Hd; subst denom; ring.
  - intros (Hd & s & t & Hs & Ht & Hx & Hy). split; [exact Hd|].
    assert (Ex : (x1 - x3 = t * (x4 - x3) - s * (x2 - x1))%R) by lra.
    assert (Ey : (y1 - y3 = t * (y4 - y3) - s * (y2 - y1))%R) by lra.
    assert (Hua : ua = s).
    { subst ua. rewrite Ex, Ey. subst denom. field. exact Hd. }
    assert (Hub : ub = t).
    { subst ub. rewrite Ex, Ey. subst denom. field. exact Hd. }
    rewrite Hua, Hub. lra.
Qed.

Section Stationary.
Local Open Scope float_scope.

Lemma sub_self_zero_or_nan (x : float) : zero_or_nan (Prim2SF (x - x)).
Proof.
  rewrite sub_spec.
  destruct (Prim2SF x) as [s|s| |s m e]; simpl; try exact I.
  - destruct s; exact I.
  - destruct s; exact I.
  - change (IntDef.Z.min e e) with (Z.min e e).
    rewrite Z.min_id. unfold shl_align. rewrite !Z.sub_diag. simpl.
    rewrite ?Z.sub_diag. exact I.
Qed.

Lemma mul_zero_or_nan (a z : float) :
  zero_or_nan (Prim2SF z) -> zero_or_nan (Prim2SF (a * z)).
Proof.
  rewrite mul_spec.
  destruct (Prim2SF z); simpl; try contradiction; intros _;
    destruct (Prim2SF a); exact I.
Qed.

Lemma sub_zero_or_nan (a b : float) :
  zero_or_nan (Prim2SF a) -> zero_or_nan (Prim2SF b) ->
  zero_or_nan (Prim2SF (a - b)).
Proof.
  rewrite sub_spec.
  destruct (Prim2SF a) as [s| | |]; simpl; try contradiction; intros _;
    destruct (Prim2SF b) as [s'| | |]; simpl; try contradiction; intros _;
    try exact I.
  destruct s, s'; exact I.
Qed.

(** A denominator that is zero or NaN: no intersection is reported. *)
Lemma lineIntersect_degenerate (h : float -> float -> float)
    (x1 y1 x2 y2 x3 y3 x4 y4 : float) :
  zero_or_nan (Prim2SF ((y4 - y3) * (x2 - x1) - (x4 - x3) * (y2 - y1))) ->
  lineIntersect (N := Float64 h) x1 y1 x2 y2 x3 y3 x4 y4 = false.
Proof.
  intros Hd. unfold lineIntersect.
  change (@of_Z float (Float64 h) 0) with 0.
  change (@of_Z float (Float64 h) 1) with 1.
  cbn [add sub mul div eqb leb Float64].
  set (denom := (y4 - y3) * (x2 - x1) - (x4 - x3) * (y2 - y1)) in *.
  set (na := (x4 - x3) * (y1 - y3) - (y4 - y3) * (x1 - x3)).
  rewrite FloatAxioms.eqb_spec, (FloatAxioms.leb_spec 0 (na / denom)), div_spec.
  change (Prim2SF 0) with (S754_zero false).
  destruct (Prim2SF denom) as [s|s| |s m e]; simpl in Hd; try contradiction.
  - reflexivity.
  - destruct (Prim2SF na); reflexivity.
Qed.

Lemma lineIntersect_stationary (h : float -> float -> float)
    (x y x3 y3 x4 y4 : float) :
  lineIntersect (N := Float64 h) x y x y x3 y3 x4 y4 = false.
Proof.
  apply lineIntersect_degenerate.
  apply sub_zero_or_nan; apply mul_zero_or_nan, sub_self_zero_or_nan.
Qed.

End Stationary.

Section StationaryCut.
Context {num : Type} {N : Number num}.

(** A cut that crosses nothing leaves the cloth as it is. *)
Lemma cutCloth_crossing_nothing (mouse : Mouse.t num) (c : Cloth num) :
  well_indexed c = true ->
  (forall k, In k (constraints c) -> crosses mouse (particles c) k = false) ->
  cutCloth mouse c = Normal c.
Proof.
  intros Hwf Hno. rewrite (cutCloth_map mouse c Hwf).
  replace (map (severed mouse (particles c)) (constraints c))
    with (constraints c); [destruct c; reflexivity|].
  rewrite <- (map_id (constraints c)) at 1.
  apply map_ext_in. intros k Hk.
  rewrite severed_fields, (Hno k Hk), andb_true_r.
  destruct k; reflexivity.
Qed.

End StationaryCut.

(** X9. A pointer that has not moved cuts nothing.  When the cut segment
    has the same start and end, [applyCut] leaves a well indexed cloth as it
    is: on binary64 for every value of the coordinates, NaN and the
    infinities included (the denominator is then a zero or NaN), and on the
    reals. *)
Theorem stationary_pointer_cuts_nothing :
  (forall (h : float -> float -> float) (mouse : Mouse.t float)
          (c : Cloth float),
      Mouse.prevX mouse = Mouse.x mouse ->
      Mouse.prevY mouse = Mouse.y mouse ->
      well_indexed c = true ->
      cutCloth (N := Float64 h) mouse c = Normal c) /\
  (forall (mouse : Mouse.t R) (c : Cloth R),
      Mouse.prevX mouse = Mouse.x mouse ->
      Mouse.prevY mouse = Mouse.y mouse ->
      well_indexed c = true ->
      cutCloth (N := Real) mouse c = Normal c).
Proof.
  split.
  - intros h mouse c Hx Hy Hwf.
    apply cutCloth_crossing_nothing; [exact Hwf|].
    intros k _. unfold crosses.
    destruct (particles c !! Constraint.p1 k); [|reflexivity].
    destruct (particles c !! Constraint.p2 k); [|reflexivity].
    rewrite Hx, Hy. apply lineIntersect_stationary.
  - intros mouse c Hx Hy Hwf.
    apply cutCloth_crossing_nothing; [exact Hwf|].
    intros k _. unfold crosses.
    destruct (particles c !! Constraint.p1 k); [|reflexivity].
    destruct (particles c !! Constraint.p2 k); [|reflexivity].
    rewrite Hx, Hy. apply lineIntersect_zero_denominator.
    change (@of_Z R Real 0) with 0%R. cbn [add sub mul eqb Real].
    destruct (Req_dec_T _ 0%R) as [_|Hne]; [reflexivity|].
    exfalso. apply Hne. ring.
Qed.

(** A pointer resting on the constraint of [Sample.span], and one resting
    at infinity. *)
Lemma stationary_pointer_cuts_nothing_witness :
  cutCloth (N := F64) (Sample.mouse 5 0 5 0) Sample.span = Normal Sample.span /\
  cutCloth (N := F64) (Sample.mouse infinity 0 infinity 0) Sample.span
    = Normal Sample.span.
Proof.
  split;
    apply (proj1 stationary_pointer_cuts_nothing naive_hypot); reflexivity.
Defined.

(** ** Relaxation on the reals *)

Section RelaxExact.
Local Open Scope R_scope.

Lemma sqrt_scaled (c a b : R) :
  R_sqrt.sqrt ((c * a) * (c * a) + (c * b) * (c * b)) =
  Rabs c * R_sqrt.sqrt (a * a + b * b).
Proof.
  replace ((c * a) * (c * a) + (c * b) * (c * b))
    with (Rsqr c * (a * a + b * b)) by (unfold Rsqr; ring).
  rewrite sqrt_mult; [|apply Rle_0_sqr | nra].
  rewrite sqrt_Rsqr_abs. reflexivity.
Qed.

(** The two particles of a constraint after its relaxation, when they are
    different particles. *)
Lemma relaxConstraint_endpoints (cfg : Config.t R) (k : Constraint.t R)
    (ps : list (Particle.t R)) (pa pb : Particle.t R) :
  Constraint.active k = true ->
  Constraint.p1 k <> Constraint.p2 k ->
  ps !! Constraint.p1 k = Some pa ->
  ps !! Constraint.p2 k = Some pb ->
  let dx := Particle.x pa - Particle.x pb in
  let dy := Particle.y pa - Particle.y pb in
  let D := R_sqrt.sqrt (dx * dx + dy * dy) in
  let corr := (Constraint.length k - D) / D * Config.stiffness cfg * (5 / 10) in
  let qa := if Particle.pinned pa then pa
            else Particle.set_xy (Particle.x pa + dx * corr)
                                 (Particle.y pa + dy * corr) pa in
  let qb := if Particle.pinned pb then pb
            else Particle.set_xy (Particle.x pb - dx * corr)
                                 (Particle.y pb - dy * corr) pb in
  exists ps',
    relaxConstraint (N := Real) cfg k ps = Normal ps' /\
    ps' !! Constraint.p1 k = Some qa /\ ps' !! Constraint.p2 k = Some qb.
Proof.
  intros Hact Hne Ha Hb dx dy D corr qa qb.
  unfold relaxConstraint. rewrite Hact, Ha, Hb.
  change (@dec R Real 5 1) with (5 / 10).
  cbn [negb add sub mul div sqrt Real].
  fold dx dy. fold D. fold corr.
  eexists. split; [reflexivity|].
  subst qa qb.
  destruct (Particle.pinned pa), (Particle.pinned pb); cbn [negb];
    rewrite ?list_lookup_alter_eq, ?list_lookup_alter_ne by auto;
    rewrite ?list_lookup_alter_eq, ?list_lookup_alter_ne by auto;
    rewrite ?Ha, ?Hb; split; reflexivity.
Qed.

(** A constraint already at its rest length moves nothing. *)
Lemma relaxConstraint_at_rest (cfg : Config.t R) (k : Constraint.t R)
    (ps : list (Particle.t R)) (pa pb : Particle.t R) :
  ps !! Constraint.p1 k = Some pa ->
  ps !! Constraint.p2 k = Some pb ->
  Constraint.length k =
    R_sqrt.sqrt ((Particle.x pa - Particle.x pb) * (Particle.x pa - Particle.x pb)
                 + (Particle.y pa - Particle.y pb) * (Particle.y pa - Particle.y pb)) ->
  relaxConstraint (N := Real) cfg k ps = Normal ps.
Proof.
  intros Ha Hb Hlen. unfold relaxConstraint. rewrite Ha, Hb.
  destruct (Constraint.active k); [|reflexivity].
  change (@dec R Real 5 1) with (5 / 10).
  cbn [negb add sub mul div sqrt Real].
  rewrite <- Hlen.
  replace ((Constraint.length k - Constraint.length k) / Constraint.length k
           * Config.stiffness cfg * (5 / 10)) with 0
    by (unfold Rdiv; ring).
  rewrite !Rmult_0_r.
  assert (Hplus : forall q : Particle.t R,
             Particle.set_xy (Particle.x q + 0) (Particle.y q + 0) q = q)
    by (intros [x y ox oy b]; unfold Particle.set_xy; simpl;
        rewrite !Rplus_0_r; reflexivity).
  assert (Hminus : forall q : Particle.t R,
             Particle.set_xy (Particle.x q - 0) (Particle.y q - 0) q = q)
    by (intros [x y ox oy b]; unfold Particle.set_xy; simpl;
        rewrite !Rminus_0_r; reflexivity).
  destruct (negb (Particle.pinned pa)), (negb (Particle.pinned pb));
    rewrite ?(list_alter_id _ _ _ Hplus), ?(list_alter_id _ _ _ Hminus),
            ?(list_alter_id _ _ _ Hplus);
    reflexivity.
Qed.

Lemma relaxPass_at_rest (cfg : Config.t R) (cs : list (Constraint.t R))
    (ps : list (Particle.t R)) :
  (forall k, In k cs ->
     exists pa pb,
       ps !! Constraint.p1 k = Some pa /\ ps !! Constraint.p2 k = Some pb /\
       Constraint.length k =
         R_sqrt.sqrt ((Particle.x pa - Particle.x pb) * (Particle.x pa - Particle.x pb)
                      + (Particle.y pa - Particle.y pb) * (Particle.y pa - Particle.y pb))) ->
  relaxPass (N := Real) cfg cs ps = Normal ps.
Proof.
  unfold relaxPass. induction cs as [|k cs IH]; intros H; simpl; [reflexivity|].
  destruct (H k (or_introl eq_refl)) as (pa & pb & Ha & Hb & Hlen).
  rewrite (relaxConstraint_at_rest cfg k ps pa pb Ha Hb Hlen). simpl.
  apply IH. intros k' Hk'. apply H. right. exact Hk'.
Qed.

Lemma repeatM_fixed {S} (n : nat) (f : S -> completion S) (s : S) :
  f s = Normal s -> repeatM n f s = Normal s.
Proof.
  intros H. induction n as [|n IH]; simpl; [reflexivity|].
  rewrite H. simpl. exact IH.
Qed.

End RelaxExact.

(** X10. One relaxation of an active constraint between two different
    particles, on the reals.  With [D] the distance, [L] the rest length,
    [s] the stiffness and [m] the number of free endpoints (0, 1 or 2), the
    separation vector is scaled by [1 + m * s * (L - D) / (2 D)]: the
    particles stay on their line.  Two free endpoints move by equal and
    opposite amounts (their midpoint stays) and with stiffness 1 end up
    exactly [|L|] apart; with the first endpoint pinned and the second free
    the pinned one stays, the other makes up half of the error, and the new
    distance is [|(D + L) / 2|]. *)
Theorem relaxation_scales_the_separation
    (cfg : Config.t R) (k : Constraint.t R) (ps : list (Particle.t R))
    (pa pb : Particle.t R) :
  Constraint.active k = true ->
  Constraint.p1 k <> Constraint.p2 k ->
  ps !! Constraint.p1 k = Some pa ->
  ps !! Constraint.p2 k = Some pb ->
  let dx := (Particle.x pa - Particle.x pb)%R in
  let dy := (Particle.y pa - Particle.y pb)%R in
  let D := R_sqrt.sqrt (dx * dx + dy * dy)%R in
  let L := Constraint.length k in
  let s := Config.stiffness cfg in
  let m := ((if Particle.pinned pa then 0 else 1) +
            (if Particle.pinned pb then 0 else 1))%R in
  let scale := (1 + m * s * (L - D) / (2 * D))%R in
  (0 < D)%R ->
  exists ps' qa qb,
    relaxConstraint (N := Real) cfg k ps = Normal ps' /\
    ps' !! Constraint.p1 k = Some qa /\ ps' !! Constraint.p2 k = Some qb /\
    (Particle.x qa - Particle.x qb = scale * dx)%R /\
    (Particle.y qa - Particle.y qb = scale * dy)%R /\
    R_sqrt.sqrt ((Particle.x qa - Particle.x qb) * (Particle.x qa - Particle.x qb)
                 + (Particle.y qa - Particle.y qb) * (Particle.y qa - Particle.y qb))%R
      = (Rabs scale * D)%R /\
    (Particle.pinned pa = false -> Particle.pinned pb = false ->
     (Particle.x qa + Particle.x qb = Particle.x pa + Particle.x pb)%R /\
     (Particle.y qa + Particle.y qb = Particle.y pa + Particle.y pb)%R /\
     (s = 1%R -> (Rabs scale * D = Rabs L)%R)) /\
    (Particle.pinned pa = true -> Particle.pinned pb = false ->
     qa = pa /\ (s = 1%R -> (Rabs scale * D = Rabs ((D + L) / 2))%R)).
Proof.
  intros Hact Hne Ha Hb dx dy D L s m scale HD.
  destruct (relaxConstraint_endpoints cfg k ps pa pb Hact Hne Ha Hb)
    as (ps' & Hrun & Hqa & Hqb).
  fold dx dy in Hqa, Hqb. fold D in Hqa, Hqb. fold L s in Hqa, Hqb.
  set (corr := ((L - D) / D * s * (5 / 10))%R) in *.
  eexists ps', _, _. split; [exact Hrun|]. split; [exact Hqa|].
  split; [exact Hqb|].
  assert (Hscale : (scale = 1 + m * corr)%R).
  { subst scale corr. field. lra. }
  assert (HX : ((Particle.x (if Particle.pinned pa then pa
                     else Particle.set_xy (Particle.x pa + dx * corr)
                                          (Particle.y pa + dy * corr) pa)
                 - Particle.x (if Particle.pinned pb then pb
                     else Particle.set_xy (Particle.x pb - dx * corr)
                                          (Particle.y pb - dy * corr) pb))
                = scale * dx)%R).
  { rewrite Hscale. subst m dx.
    destruct (Particle.pinned pa), (Particle.pinned pb); simpl; ring. }
  assert (HY : ((Particle.y (if Particle.pinned pa then pa
                     else Particle.set_xy (Particle.x pa + dx * corr)
                                          (Particle.y pa + dy * corr) pa)
                 - Particle.y (if Particle.pinned pb then pb
                     else Particle.set_xy (Particle.x pb - dx * corr)
                                          (Particle.y pb - dy * corr) pb))
                = scale * dy)%R).
  { rewrite Hscale. subst m dy.
    destruct (Particle.pinned pa), (Particle.pinned pb); simpl; ring. }
  split; [exact HX|]. split; [exact HY|].
  split; [rewrite HX, HY; apply sqrt_scaled|].
  split.
  - intros Hpa Hpb. rewrite Hpa, Hpb. simpl.
    split; [ring|]. split; [ring|].
    intros Hs.
    replace scale with (L / D)%R
      by (subst scale m; rewrite Hpa, Hpb, Hs; field; lra).
    unfold Rdiv. rewrite Rabs_mult, Rabs_inv, (Rabs_pos_eq D) by lra.
    field. lra.
  - intros Hpa Hpb. rewrite Hpa. split; [reflexivity|].
    intros Hs.
    replace scale with ((D + L) / 2 / D)%R
      by (subst scale m; rewrite Hpa, Hpb, Hs; field; lra).
    unfold Rdiv at 1. rewrite Rabs_mult, Rabs_inv, (Rabs_pos_eq D) by lra.
    field. lra.
Qed.

(** Two free particles five units apart on a spring of rest length 3, Denim
    (stiffness 1): they end up three units apart. *)
Lemma relaxation_scales_the_separation_witness :
  exists ps' qa qb,
    relaxConstraint (N := Real) DENIM Demo.spring3 Demo.pair = Normal ps' /\
    ps' !! 0%nat = Some qa /\ ps' !! 1%nat = Some qb /\
    (Particle.x qa + Particle.x qb = 5 + 0)%R.
Proof.
  assert (HD : (0 < R_sqrt.sqrt ((5 - 0) * (5 - 0) + (0 - 0) * (0 - 0)))%R).
  { replace ((5 - 0) * (5 - 0) + (0 - 0) * (0 - 0))%R with (5 * 5)%R by lra.
    rewrite sqrt_square; lra. }
  destruct (relaxation_scales_the_separation (DENIM (N := Real)) Demo.spring3
              Demo.pair (Particle.mk 5%R 0%R 5%R 0%R false)
              (Particle.mk 0%R 0%R 0%R 0%R false)
              eq_refl ltac:(discriminate) eq_refl eq_refl HD)
    as (ps' & qa & qb & Hrun & Hqa & Hqb & _ & _ & _ & Hfree & _).
  exists ps', qa, qb. split; [exact Hrun|]. split; [exact Hqa|].
  split; [exact Hqb|].
  exact (proj1 (Hfree eq_refl eq_refl)).
Defined.

(** X11. On the reals a cloth fresh from [init] is in equilibrium: every
    constraint is at its rest length, so the relaxation passes of the next
    [updatePhysics] move no particle and the step is the integration
    alone. *)
Theorem relaxation_after_reset_moves_nothing (c : Cloth R) :
  let s := state_of (init (N := Real) c) in
  relax (N := Real) (config s) (constraints s) (particles s)
    = Normal (particles s) /\
  updatePhysics (N := Real) s
    = Normal (set_particles s (map (integrate (config s)) (particles s))).
Proof.
  intros s.
  assert (Hrelax : relax (N := Real) (config s) (constraints s) (particles s)
                   = Normal (particles s)).
  { unfold relax. rewrite for_repeatM. apply repeatM_fixed.
    apply relaxPass_at_rest. intros k Hk.
    subst s. rewrite (init_Normal c) in Hk |- *. simpl in Hk |- *.
    apply in_springsOfGrid in Hk as (x & y & _ & _ & Hk).
    destruct Hk as [[_ Hk]|[_ Hk]];
      apply in_spring in Hk as (pa & pb & Ha & Hb & ->);
      exists pa, pb; simpl; auto. }
  split; [exact Hrelax|].
  unfold updatePhysics. rewrite Hrelax. reflexivity.
Qed.

(** ** More on the floor and the wind *)

Section NotBelow.
Context {num : Type} {N : Number num}.
Local Open Scope num_scope.

(** In an arithmetic where 300 is not above 300, integration leaves no free
    particle above 300. *)
Lemma integrate_not_below (cfg : Config.t num) (p : Particle.t num) :
  (of_Z 300 >? of_Z 300) = false ->
  Particle.pinned p = false ->
  (Particle.y (integrate cfg p) >? of_Z 300) = false.
Proof.
  intros H300 Hp. unfold integrate. rewrite Hp.
  cbn [Particle.set_oldx Particle.set_oldy Particle.set_x Particle.set_y
       Particle.x Particle.y Particle.oldx Particle.oldy Particle.pinned].
  match goal with
  | |- context [if ?b then _ else _] => destruct b eqn:Hfloor
  end.
  - match goal with
    | |- context [if ?b then _ else _] => destruct b
    end; exact H300.
  - exact Hfloor.
Qed.

Lemma updatePhysics_not_below (c c' : Cloth num) (p : Particle.t num) :
  (of_Z 300 >? of_Z 300) = false ->
  updatePhysics c = Normal c' ->
  In p (particles c') -> Particle.pinned p = false ->
  (Particle.y p >? of_Z 300) = false.
Proof.
  intros H300 Hrun Hin Hp.
  destruct (updatePhysics_integrates c c' Hrun) as (ps & _ & Hps).
  rewrite Hps in Hin. apply in_map_iff in Hin as (q & <- & _).
  apply integrate_not_below; [exact H300|].
  rewrite <- Hp. symmetry. apply integrate_pinned.
Qed.

End NotBelow.

(** X12. After an [updatePhysics] that ends normally no free particle is
    below the floor: [y > 300] is false for each of them, on binary64
    (whatever the values, NaN included) and on the reals, where it says
    [y <= 300].  Pinned particles are not tested against the floor. *)
Theorem step_leaves_no_free_particle_below_the_floor :
  (forall (h : float -> float -> float) (c c' : Cloth float)
          (p : Particle.t float),
      updatePhysics (N := Float64 h) c = Normal c' ->
      In p (particles c') -> Particle.pinned p = false ->
      PrimFloat.ltb 300 (Particle.y p) = false) /\
  (forall (c c' : Cloth R) (p : Particle.t R),
      updatePhysics (N := Real) c = Normal c' ->
      In p (particles c') -> Particle.pinned p = false ->
      (Particle.y p <= 300)%R).
Proof.
  split.
  - intros h c c' p Hrun Hin Hp.
    exact (updatePhysics_not_below (N := Float64 h) c c' p eq_refl Hrun Hin Hp).
  - intros c c' p Hrun Hin Hp.
    assert (H300 : ltb (Number := Real) (of_Z 300) (of_Z 300) = false).
    { change (@of_Z R Real 300) with 300%R. simpl.
      destruct (Rlt_dec 300 300); [lra | reflexivity]. }
    pose proof (updatePhysics_not_below (N := Real) c c' p H300 Hrun Hin Hp)
      as H.
    change (@of_Z R Real 300) with 300%R in H. simpl in H.
    destruct (Rlt_dec 300 (Particle.y p)); [discriminate | lra].
Qed.

(** The free particles of [Sample.hanging] after a step. *)
Lemma step_leaves_no_free_particle_below_the_floor_witness :
  Forall (fun p => Particle.pinned p = false ->
                   PrimFloat.ltb 300 (Particle.y p) = false)
         (particles (state_of (updatePhysics (N := F64) Sample.hanging))).
Proof.
  apply Forall_forall. intros p Hp.
  apply (proj1 step_leaves_no_free_particle_below_the_floor naive_hypot
           Sample.hanging (state_of (updatePhysics (N := F64) Sample.hanging))).
  - reflexivity.
  - apply list_elem_of_In. exact Hp.
Defined.

(** X13. On the reals a free particle lying still on the floor stays as it
    is: with [x = oldx], [y = oldy = 300] and gravity not negative,
    integration returns the same particle, so the floor response does not
    jitter. *)
Theorem resting_on_the_floor_is_a_fixed_point
    (cfg : Config.t R) (p : Particle.t R) :
  Particle.pinned p = false ->
  Particle.oldx p = Particle.x p ->
  Particle.y p = 300%R ->
  Particle.oldy p = 300%R ->
  (0 <= Config.gravity cfg)%R ->
  integrate (N := Real) cfg p = p.
Proof.
  destruct p as [x y ox oy b]. simpl. intros -> -> -> -> Hg.
  unfold integrate.
  cbn [Particle.set_oldx Particle.set_oldy Particle.set_x Particle.set_y
       Particle.x Particle.y Particle.oldx Particle.oldy Particle.pinned].
  change (@of_Z R Real 300) with 300%R. change (@of_Z R Real 0) with 0%R.
  change (@dec R Real 1 1) with (1 / 10)%R.
  change (@dec R Real 4 1) with (4 / 10)%R.
  cbn [add sub mul ltb Real].
  destruct (Rlt_dec 300 _) as [Hfloor|Hfloor].
  - destruct (Rlt_dec 0 _) as [Hvy|Hvy]; [exfalso; lra|].
    cbv [Particle.set_oldx Particle.set_oldy Particle.set_x Particle.set_y
         Particle.x Particle.y Particle.oldx Particle.oldy Particle.pinned].
    f_equal; lra.
  - cbv [Particle.set_oldx Particle.set_oldy Particle.set_x Particle.set_y
         Particle.x Particle.y Particle.oldx Particle.oldy Particle.pinned].
    f_equal; lra.
Qed.

(** A Denim particle at rest on the floor. *)
Lemma resting_on_the_floor_is_a_fixed_point_witness :
  integrate (N := Real) DENIM (Particle.mk 7%R 300%R 7%R 300%R false)
  = Particle.mk 7%R 300%R 7%R 300%R false.
Proof.
  apply (resting_on_the_floor_is_a_fixed_point (DENIM (N := Real)));
    try reflexivity.
  cbv [DENIM dec of_Z Real div Config.gravity].
  change (10 ^ Z.of_nat 2)%Z with 100%Z. lra.
Defined.

(** X14. On the reals the wind pushes straight away from its centre: a free
    particle within the radius, under a sensitivity that is not negative,
    keeps its direction from the centre and has its distance to the centre
    multiplied by [1 + force * mouseInfluence], which is at least 1; it is
    never pulled towards the centre or through it. *)
Theorem wind_pushes_away_from_the_centre
    (mouse : Mouse.t R) (cfg : Config.t R) (p : Particle.t R) :
  Particle.pinned p = false ->
  let dx := (Particle.x p - Mouse.x mouse)%R in
  let dy := (Particle.y p - Mouse.y mouse)%R in
  let dist := R_sqrt.sqrt (dx * dx + dy * dy)%R in
  let gain := (1 + (80 - dist) / 80 * Config.mouseInfluence cfg)%R in
  (dist < 80)%R ->
  (0 <= Config.mouseInfluence cfg)%R ->
  let p' := windParticle (N := Real) mouse cfg p in
  (Particle.x p' - Mouse.x mouse = gain * dx)%R /\
  (Particle.y p' - Mouse.y mouse = gain * dy)%R /\
  (1 <= gain)%R /\
  R_sqrt.sqrt ((Particle.x p' - Mouse.x mouse) * (Particle.x p' - Mouse.x mouse)
               + (Particle.y p' - Mouse.y mouse) * (Particle.y p' - Mouse.y mouse))%R
    = (gain * dist)%R /\
  (dist <= gain * dist)%R.
Proof.
  intros Hp dx dy dist gain Hlt Hinf p'.
  destruct (windParticle_cases (N := Real) mouse cfg p) as (H1 & _ & _).
  change (@of_Z R Real 80) with 80%R in H1.
  cbn [add sub mul div sqrt ltb Real] in H1.
  fold dx dy in H1. fold dist in H1. fold p' in H1.
  destruct (Rlt_dec dist 80) as [_|Hn]; [|contradiction].
  rewrite (H1 eq_refl Hp). cbn [Particle.x Particle.y Particle.set_xy].
  assert (Hd : (0 <= dist)%R) by apply sqrt_pos.
  assert (Hgain : (1 <= gain)%R).
  { subst gain.
    assert (0 <= (80 - dist) / 80 * Config.mouseInfluence cfg)%R; [|lra].
    apply Rmult_le_pos; [|exact Hinf]. lra. }
  assert (HX : (Particle.x p
                + dx * ((80 - dist) / 80 * Config.mouseInfluence cfg)
                - Mouse.x mouse = gain * dx)%R) by (subst gain dx; ring).
  assert (HY : (Particle.y p
                + dy * ((80 - dist) / 80 * Config.mouseInfluence cfg)
                - Mouse.y mouse = gain * dy)%R) by (subst gain dy; ring).
  split; [exact HX|]. split; [exact HY|]. split; [exact Hgain|].
  split.
  - rewrite HX, HY, sqrt_scaled. fold dist. rewrite Rabs_pos_eq by lra.
    reflexivity.
  - nra.
Qed.

(** The particle of [RealSample.nearby], 50 units from the centre, under
    Denim's sensitivity. *)
Lemma wind_pushes_away_from_the_centre_witness :
  (1 <= 1 + (80 - R_sqrt.sqrt ((30 - 0) * (30 - 0) + (40 - 0) * (40 - 0))) / 80
            * Config.mouseInfluence (DENIM (N := Real)))%R.
Proof.
  assert (H50 : R_sqrt.sqrt ((30 - 0) * (30 - 0) + (40 - 0) * (40 - 0)) = 50%R).
  { replace ((30 - 0) * (30 - 0) + (40 - 0) * (40 - 0))%R with (50 * 50)%R
      by lra.
    apply sqrt_square. lra. }
  refine (proj1 (proj2 (proj2
            (wind_pushes_away_from_the_centre RealSample.centre
               (DENIM (N := Real)) RealSample.nearby eq_refl _ _)))).
  - cbv [RealSample.centre RealSample.nearby Particle.x Particle.y
         Mouse.x Mouse.y]. rewrite H50. lra.
  - cbv [DENIM dec of_Z Real div Config.mouseInfluence].
    change (10 ^ Z.of_nat 2)%Z with 100%Z. lra.
Defined.

(** X15. The floor branch of the earlier copy of the script.  For a free
    particle carried below the floor it sets [y] to 300 and [oldy] to
    [300 + vy] and leaves [oldx] at the position before the move; read on
    the reals, the vertical velocity implied for the next frame is [- vy],
    the velocity mirrored at full size (a bounce), and the horizontal one is
    [vx], undamped. *)
Theorem legacy_floor_mirrors_the_velocity :
  (forall num (N : Number num) (cfg : Config.t num) (p : Particle.t num),
      Particle.pinned p = false ->
      let vx := ((Particle.x p - Particle.oldx p) * Config.friction cfg)%num in
      let vy := ((Particle.y p - Particle.oldy p) * Config.friction cfg)%num in
      (Particle.y p + (vy + Config.gravity cfg) >? of_Z 300)%num = true ->
      let p' := Legacy.integrate cfg p in
      Particle.y p' = of_Z 300 /\
      Particle.oldy p' = (of_Z 300 + vy)%num /\
      Particle.x p' = (Particle.x p + vx)%num /\
      Particle.oldx p' = Particle.x p) /\
  (forall (cfg : Config.t R) (p : Particle.t R),
      Particle.pinned p = false ->
      let vx := ((Particle.x p - Particle.oldx p) * Config.friction cfg)%R in
      let vy := ((Particle.y p - Particle.oldy p) * Config.friction cfg)%R in
      (300 < Particle.y p + (vy + Config.gravity cfg))%R ->
      let p' := Legacy.integrate (N := Real) cfg p in
      (Particle.y p' - Particle.oldy p' = - vy)%R /\
      (Particle.x p' - Particle.oldx p' = vx)%R).
Proof.
  assert (Hlaw : forall num (N : Number num) (cfg : Config.t num)
                        (p : Particle.t num),
             Particle.pinned p = false ->
             let vx := ((Particle.x p - Particle.oldx p) * Config.friction cfg)%num in
             let vy := ((Particle.y p - Particle.oldy p) * Config.friction cfg)%num in
             (Particle.y p + (vy + Config.gravity cfg) >? of_Z 300)%num = true ->
             let p' := Legacy.integrate cfg p in
             Particle.y p' = of_Z 300 /\
             Particle.oldy p' = (of_Z 300 + vy)%num /\
             Particle.x p' = (Particle.x p + vx)%num /\
             Particle.oldx p' = Particle.x p).
  { intros num N cfg p Hp vx vy Hfloor p'. subst p'.
    unfold Legacy.integrate. rewrite Hp.
    cbn [Particle.set_oldx Particle.set_oldy Particle.set_x Particle.set_y
         Particle.x Particle.y Particle.oldx Particle.oldy].
    fold vx vy. rewrite Hfloor. simpl. auto. }
  split; [exact Hlaw|].
  intros cfg p Hp vx vy Hfloor p'.
  destruct (Hlaw R Real cfg p Hp) as (Hy & Hoy & Hx & Hox).
  { apply Real_ltb_true. exact Hfloor. }
  fold p' in Hy, Hoy, Hx, Hox.
  change (@of_Z R Real 300) with 300%R in *.
  cbn [add sub mul Real] in Hoy, Hx. fold vx vy in Hoy, Hx.
  rewrite Hy, Hoy, Hx, Hox. split; ring.
Qed.

(** The falling Denim particle of [RealSample.falling] in the earlier
    copy. *)
Lemma legacy_floor_mirrors_the_velocity_witness :
  (Particle.y (Legacy.integrate (N := Real) DENIM RealSample.falling)
   - Particle.oldy (Legacy.integrate (N := Real) DENIM RealSample.falling)
   = - ((299 - 289) * (90 / 100)))%R.
Proof.
  refine (proj1 (proj2 legacy_floor_mirrors_the_velocity
                   (DENIM (N := Real)) RealSample.falling eq_refl _)).
  cbv [DENIM dec of_Z Real div RealSample.falling Particle.x Particle.y
       Particle.oldx Particle.oldy Config.friction Config.gravity].
  change (10 ^ Z.of_nat 2)%Z with 100%Z. lra.
Defined.

(** ** More on the grid *)

Section GridMore.
Context {num : Type} {N : Number num}.
Local Open Scope num_scope.

(** Every particle of a fresh cloth sits at a grid position. *)
Lemma init_particle_at (c : Cloth num) (i : nat) (p : Particle.t num) :
  particles (state_of (init c)) !! i = Some p ->
  exists x y,
    (x < Config.particlesX (config c))%nat /\
    (y < Config.particlesY (config c))%nat /\
    i = getIdx (config c) x y /\
    p = initParticle (offsetX c)
          (CLOTH_WIDTH / of_nat (Config.particlesX (config c)))
          (CLOTH_HEIGHT / of_nat (Config.particlesY (config c))) x y.
Proof.
  rewrite (init_Normal c). simpl. intros Hi.
  pose proof (lookup_lt_Some _ _ _ Hi) as Hlt.
  rewrite generateParticles_length in Hlt.
  set (Nx := Config.particlesX (config c)) in *.
  set (Ny := Config.particlesY (config c)) in *.
  assert (HNx : (0 < Nx)%nat) by nia.
  exists (i mod Nx)%nat, (i / Nx)%nat.
  assert (Hx : (i mod Nx < Nx)%nat) by (apply Nat.mod_upper_bound; lia).
  assert (Hy : (i / Nx < Ny)%nat) by (apply Nat.Div0.div_lt_upper_bound; nia).
  assert (Hidx : i = getIdx (config c) (i mod Nx) (i / Nx)).
  { unfold getIdx. fold Nx. rewrite (Nat.div_mod_eq i Nx) at 1. lia. }
  split; [exact Hx|]. split; [exact Hy|]. split; [exact Hidx|].
  pose proof (generateParticles_lookup (config c) (offsetX c) _ _ Hx Hy) as H.
  rewrite <- Hidx in H. subst Nx Ny.
  rewrite Hi in H. inversion H. reflexivity.
Qed.

End GridMore.

(** X16. [init] pins exactly the top row and starts every particle at rest:
    particle number [i] of a fresh cloth is pinned if and only if
    [i < particlesX], and its previous position equals its position. *)
Theorem reset_pins_exactly_the_top_row
    {num : Type} {N : Number num} (c : Cloth num) (i : nat)
    (p : Particle.t num) :
  particles (state_of (init c)) !! i = Some p ->
  (Particle.pinned p = true <-> (i < Config.particlesX (config c))%nat) /\
  Particle.oldx p = Particle.x p /\
  Particle.oldy p = Particle.y p.
Proof.
  intros Hi.
  destruct (init_particle_at c i p Hi) as (x & y & Hx & Hy & -> & ->).
  unfold initParticle, getIdx. simpl. split; [|split; reflexivity].
  rewrite Nat.eqb_eq. split; [intros ->; lia | intros H; nia].
Qed.

(** The third particle of the two by two patch: second row, free. *)
Lemma reset_pins_exactly_the_top_row_witness :
  let p := Particle.mk 0%float (-75)%float 0%float (-75)%float false in
  particles (state_of (init (N := F64) Demo.patch)) !! 2%nat = Some p /\
  (Particle.pinned p = true <-> (2 < 2)%nat).
Proof.
  intros p.
  assert (Hp : particles (state_of (init (N := F64) Demo.patch)) !! 2%nat
               = Some p) by reflexivity.
  split; [exact Hp|].
  exact (proj1 (reset_pins_exactly_the_top_row (N := F64) Demo.patch 2 p Hp)).
Defined.

(** X17. On the reals a fresh cloth hangs inside the same box whatever its
    resolution: every particle has [offsetX <= x < offsetX + 250] and
    [-250 <= y < 100] (the box is [CLOTH_WIDTH] by [CLOTH_HEIGHT], its right
    and bottom edges never reached). *)
Theorem reset_keeps_the_cloth_in_its_box
    (c : Cloth R) (i : nat) (p : Particle.t R) :
  particles (state_of (init (N := Real) c)) !! i = Some p ->
  (offsetX c <= Particle.x p < offsetX c + 250)%R /\
  (-250 <= Particle.y p < 100)%R.
Proof.
  intros Hi.
  destruct (init_particle_at (N := Real) c i p Hi)
    as (x & y & Hx & Hy & _ & ->).
  unfold initParticle, CLOTH_WIDTH, CLOTH_HEIGHT, of_nat.
  cbn [Particle.x Particle.y add mul div of_Z Real].
  set (Nx := Config.particlesX (config c)) in *.
  set (Ny := Config.particlesY (config c)) in *.
  assert (Hscale : forall (W : R) (a n : nat),
             (0 < W)%R -> (a < n)%nat ->
             (0 <= IZR (Z.of_nat a) * (W / IZR (Z.of_nat n)) < W)%R).
  { intros W a n HW Han.
    assert (Ha : (0 <= IZR (Z.of_nat a))%R) by (apply IZR_le; lia).
    assert (Hn : (IZR (Z.of_nat a) < IZR (Z.of_nat n))%R)
      by (apply IZR_lt; lia).
    set (q := (W / IZR (Z.of_nat n))%R).
    assert (Hq : (0 < q)%R) by (apply Rdiv_lt_0_compat; lra).
    assert (Hqn : (q * IZR (Z.of_nat n) = W)%R) by (subst q; field; lra).
    split; nra. }
  pose proof (Hscale 250%R x Nx ltac:(lra) Hx) as HX.
  pose proof (Hscale 350%R y Ny ltac:(lra) Hy) as HY.
  split; lra.
Qed.

(** The last particle of a two by two cloth at offset 10. *)
Lemma reset_keeps_the_cloth_in_its_box_witness :
  let p := initParticle (N := Real) 10%R (CLOTH_WIDTH / of_nat 2)%num
             (CLOTH_HEIGHT / of_nat 2)%num 1 1 in
  particles (state_of (init (N := Real) Demo.blank)) !! 3%nat = Some p /\
  (10 <= Particle.x p < 10 + 250)%R /\ (-250 <= Particle.y p < 100)%R.
Proof.
  intros p.
  assert (Hp : particles (state_of (init (N := Real) Demo.blank)) !! 3%nat
               = Some p) by reflexivity.
  split; [exact Hp|].
  exact (reset_keeps_the_cloth_in_its_box Demo.blank 3 p Hp).
Defined.

Section Events.
Context {num : Type} {N : Number num} {G : Rendering num}.

Lemma init_is_fresh (c : Cloth num) : init c = Normal (fresh c).
Proof.
  unfold fresh, newCloth.
  replace (init (mkCloth (config c) (offsetX c) [] [])) with (init c)
    by reflexivity.
  rewrite (init_Normal c). reflexivity.
Qed.

Lemma fresh_all_active (c : Cloth num) (k : Constraint.t num) :
  In k (constraints (fresh c)) -> Constraint.active k = true.
Proof.
  unfold fresh, newCloth. rewrite init_Normal. simpl. intros Hk.
  apply in_springsOfGrid in Hk as (x & y & _ & _ & Hk).
  destruct Hk as [[_ Hk]|[_ Hk]];
    apply in_spring in Hk as (pa & pb & _ & _ & ->); reflexivity.
Qed.

Lemma animate_keeps_constraints (mouse : Mouse.t num)
    (cloths : list (Cloth num)) :
  map constraints (state_of (animate mouse cloths)) = map constraints cloths.
Proof.
  unfold animate.
  match goal with
  | |- context [forEach ?body cloths] =>
      pose proof (forEach_Forall2
                    (fun c c' : Cloth num => constraints c' = constraints c)
                    body (fun _ => eq_refl)) as H
  end.
  assert (Hall : Forall2 (fun c c' : Cloth num => constraints c' = constraints c)
                   cloths
                   (state_of
                      (forEach
                         (fun cloth =>
                            updatePhysics cloth >>> fun cloth =>
                            Normal (if Mouse.isRight mouse
                                    then applyWind mouse cloth else cloth))
                         cloths))).
  { apply H. intros c.
    pose proof (proj2 (proj2 (updatePhysics_frame c))) as Hc.
    destruct (updatePhysics c) as [c1|c1]; simpl in *.
    - destruct (Mouse.isRight mouse); simpl; exact Hc.
    - exact Hc. }
  clear H. induction Hall as [|c c' cs cs' Hc _ IH]; simpl; congruence.
Qed.

Lemma quiet_handle (e : event num) (w : World.t num) :
  quiet e = true ->
  Mouse.isDown (World.mouse w) = false ->
  map constraints (World.cloths (state_of (handle e w)))
    = map constraints (World.cloths w) /\
  Mouse.isDown (World.mouse (state_of (handle e w))) = false.
Proof.
  intros Hq Hup. destruct e as [button| |posX posY|code|]; simpl in *.
  - split; [reflexivity|]. unfold mousedown.
    destruct (button =? 0)%Z; [discriminate|].
    destruct (button =? 2)%Z; simpl; exact Hup.
  - split; reflexivity.
  - unfold mousemove. simpl. rewrite Hup. simpl. split; reflexivity.
  - unfold keydown. destruct (String.eqb code "Space"); [discriminate|].
    simpl. split; [reflexivity | exact Hup].
  - rewrite state_of_cmap. simpl. split; [|exact Hup].
    apply animate_keeps_constraints.
Qed.

End Events.

(** X18. Space restores every cloth: whatever was cut or moved, ['keydown']
    with code "Space" ends normally and leaves each cloth as [new Cloth]
    built it from its profile and offset, every constraint active again;
    the mouse is not touched, and any other key changes nothing. *)
Theorem space_restores_every_cloth
    {num : Type} {N : Number num} (w : World.t num) :
  keydown "Space" w =
    Normal (World.mk (map fresh (World.cloths w)) (World.mouse w)) /\
  Forall (fun c => Forall (fun k => Constraint.active k = true) (constraints c))
         (map fresh (World.cloths w)) /\
  (forall code, String.eqb code "Space" = false -> keydown code w = Normal w).
Proof.
  split; [|split].
  - unfold keydown. simpl.
    rewrite (forEach_map init fresh) by (intros c _; apply init_is_fresh).
    reflexivity.
  - apply Forall_forall. intros c' Hc'.
    apply list_elem_of_In, in_map_iff in Hc' as (c & <- & _).
    apply Forall_forall. intros k Hk.
    apply list_elem_of_In in Hk. exact (fresh_all_active c k Hk).
  - intros code Hcode. unfold keydown. rewrite Hcode. reflexivity.
Qed.

(** X19. While the left button is up nothing is cut: through any sequence
    of mouse moves, frames, releases, presses of other buttons and keys
    other than Space, also through frames that end in an error, every
    cloth keeps its constraints, flags included, and the left button stays
    up. *)
Theorem nothing_is_cut_while_the_button_is_up
    {num : Type} {N : Number num} {G : Rendering num}
    (es : list (event num)) (w : World.t num) :
  forallb quiet es = true ->
  Mouse.isDown (World.mouse w) = false ->
  map constraints (World.cloths (runEvents es w))
    = map constraints (World.cloths w) /\
  Mouse.isDown (World.mouse (runEvents es w)) = false.
Proof.
  unfold runEvents. revert w.
  induction es as [|e es IH]; intros w Hq Hup; simpl; [auto|].
  simpl in Hq. apply andb_prop in Hq as [He Hes].
  destruct (quiet_handle e w He Hup) as [Hcs Hup'].
  destruct (IH _ Hes Hup') as [Hcs' Hup''].
  split; [congruence | exact Hup''].
Qed.

(** Moves, frames and a right-button press over [Sample.span], the pointer
    crossing its constraint. *)
Lemma nothing_is_cut_while_the_button_is_up_witness :
  let w := World.mk [Sample.span]
             (Mouse.mk 5%float (-5)%float 0%float 0%float false false) in
  let es := [MouseMove 5%float (-5)%float; Frame; MouseDown 2;
             MouseMove 5%float 5%float; MouseUp; Frame] in
  map constraints
      (World.cloths (runEvents (N := F64)
                       (G := Float64Rendering (fun a => a)) es w))
    = [constraints Sample.span].
Proof.
  intros w es.
  apply (nothing_is_cut_while_the_button_is_up
           (N := F64) (G := Float64Rendering (fun a => a)) es w);
    reflexivity.
Defined.

(** X20. A drag is cut along a connected path.  With the left button down,
    two ['mousemove'] events in a row on well indexed cloths both end
    normally; the first cuts every cloth along the segment from the old
    mouse position to the first point, the second along the segment from
    the first point to the second, so the second segment starts exactly
    where the first one ended. *)
Theorem drag_cuts_along_a_connected_path
    {num : Type} {N : Number num} {G : Rendering num}
    (ax ay bx by_ : num) (w : World.t num) :
  Mouse.isDown (World.mouse w) = true ->
  forallb well_indexed (World.cloths w) = true ->
  let m0 := World.mouse w in
  let m1 := Mouse.mk ax (neg ay) (Mouse.x m0) (Mouse.y m0)
                     true (Mouse.isRight m0) in
  let m2 := Mouse.mk bx (neg by_) ax (neg ay) true (Mouse.isRight m0) in
  let w1 := World.mk (map (cutBy m1) (World.cloths w)) m1 in
  let w2 := World.mk (map (cutBy m2) (map (cutBy m1) (World.cloths w))) m2 in
  handle (MouseMove ax ay) w = Normal w1 /\
  handle (MouseMove bx by_) w1 = Normal w2 /\
  Mouse.prevX m2 = Mouse.x m1 /\ Mouse.prevY m2 = Mouse.y m1.
Proof.
  intros Hdown Hwf m0 m1 m2 w1 w2.
  assert (Hwf1 : forallb well_indexed (map (cutBy m1) (World.cloths w)) = true).
  { apply forallb_forall. intros c' Hc'.
    apply in_map_iff in Hc' as (c & <- & Hc).
    rewrite forallb_forall in Hwf. apply cut_well_indexed, Hwf, Hc. }
  split; [|split; [|split; reflexivity]].
  - unfold handle, mousemove. cbn [Mouse.isDown].
    replace (Mouse.mk ax (neg ay) (Mouse.x (World.mouse w))
                      (Mouse.y (World.mouse w))
                      (Mouse.isDown (World.mouse w))
                      (Mouse.isRight (World.mouse w))) with m1
      by (subst m1 m0; rewrite Hdown; reflexivity).
    rewrite Hdown, (proj1 (applyCut_map m1 _ Hwf)). reflexivity.
  - unfold handle, mousemove, w1. cbn [Mouse.isDown World.mouse World.cloths].
    change (Mouse.mk bx (neg by_) (Mouse.x m1) (Mouse.y m1)
                     (Mouse.isDown m1) (Mouse.isRight m1)) with m2.
    rewrite (proj1 (applyCut_map m2 _ Hwf1)). reflexivity.
Qed.

(** Two moves across the constraint of [Sample.span], button down. *)
Lemma drag_cuts_along_a_connected_path_witness :
  let w := World.mk [Sample.span]
             (Mouse.mk 5%float (-5)%float 0%float 0%float true false) in
  exists w1 w2,
    handle (N := F64) (G := Float64Rendering (fun a => a))
           (MouseMove 5%float (-5)%float) w = Normal w1 /\
    handle (N := F64) (G := Float64Rendering (fun a => a))
           (MouseMove 5%float 5%float) w1 = Normal w2.
Proof.
  intros w.
  destruct (drag_cuts_along_a_connected_path
              (N := F64) (G := Float64Rendering (fun a => a))
              5%float (-5)%float 5%float 5%float w eq_refl eq_refl)
    as (H1 & H2 & _).
  eexists. eexists. split; [exact H1 | exact H2].
Defined.
